(** * KompAgent spatial-agent: the Spatial Action Layer

    A shallow embedding of the TypeScript sources of [libs/spatial-agent]:

    - [middleware/device-control.ts]: [validateDeviceCommand]
      (module [DeviceControl]);
    - the trajectory middleware: [detectStopPoints] (module [Trajectory]);
    - [backends/postgis.ts]: the retrying [DeviceBackend.fetch] (module
      [DeviceBackend]) and [PostGISBackend.generateSQL] (module [PostGIS]);
    - [middleware/index.ts]: [validateSQLQuery] (modules [Regex] and
      [SpatialQueryMiddleware]).

    Part I holds the definitions, Part II the theorems. *)

From Stdlib Require Import String Ascii NArith ZArith QArith Bool Lia List.
From Stdlib Require Import DecimalString Sorted.
Import ListNotations.

Close Scope Q_scope.

Set Implicit Arguments.

(* ===================================================================== *)
(** * Part I.  Definitions                                                *)
(* ===================================================================== *)

(** ** JavaScript strings

    A JavaScript string is a sequence of UTF-16 code units.  Code units are
    kept as numbers so that the character classes of the regular
    expressions ([\s] reaches far beyond ASCII) can be written as they are
    defined by the language. *)

Module Js.

Definition char16 := N.
Definition jsstring := list char16.

(** A literal of the source, given by its ASCII text. *)
Definition js (s : string) : jsstring := map N_of_ascii (list_ascii_of_string s).

Definition char_eqb (a b : char16) : bool := N.eqb a b.

(** [===] on strings. *)
Fixpoint str_eqb (a b : jsstring) : bool :=
  match a, b with
  | [], [] => true
  | x :: a', y :: b' => char_eqb x y && str_eqb a' b'
  | _, _ => false
  end.

(** [Array.prototype.includes] on an array of strings. *)
Definition includes (l : list jsstring) (x : jsstring) : bool :=
  existsb (str_eqb x) l.

(** [Array.prototype.join]. *)
Fixpoint join (sep : jsstring) (l : list jsstring) : jsstring :=
  match l with
  | [] => []
  | [x] => x
  | x :: l' => x ++ sep ++ join sep l'
  end.

(** Truthiness of a string: the empty string is falsy. *)
Definition truthy_str (s : jsstring) : bool :=
  match s with [] => false | _ => true end.

Definition is_upper (c : char16) : bool := (65 <=? c)%N && (c <=? 90)%N.
Definition is_lower (c : char16) : bool := (97 <=? c)%N && (c <=? 122)%N.
Definition is_digit (c : char16) : bool := (48 <=? c)%N && (c <=? 57)%N.

(** Case mapping of one code unit, exact on the ASCII range.  The sources
    call [toLowerCase] only on a capture of [\w+], which is ASCII. *)
Definition lower (c : char16) : char16 := if is_upper c then (c + 32)%N else c.
Definition upper (c : char16) : char16 := if is_lower c then (c - 32)%N else c.

Definition toLowerCase (s : jsstring) : jsstring := map lower s.

(** The double quote, which a literal cannot hold. *)
Definition dquote : char16 := 34%N.

(** The decimal digits of a natural number, and an integer in decimal as
    string concatenation and template literals print it. *)
Definition digits (n : N) : jsstring := js (NilZero.string_of_uint (N.to_uint n)).

Definition decimal (z : Z) : jsstring :=
  if (z <? 0)%Z then js "-" ++ digits (Z.abs_N z) else digits (Z.abs_N z).

(** A [Date] object: its time value in milliseconds since the epoch, or
    the invalid date, whose time value is [NaN]. *)
Inductive Date := ValidDate (t : Z) | InvalidDate.

(** [Date.prototype.getTime]; [None] stands for [NaN]. *)
Definition getTime (d : Date) : option Z :=
  match d with ValidDate t => Some t | InvalidDate => None end.

(** [new Date(d)] for a [Date] argument copies the time value. *)
Definition newDate (d : Date) : Date := d.

End Js.

Import Js.

(** ** JavaScript numbers as they print

    A number is kept as the decimal it prints as: [Decimal m e] is the
    number whose shortest decimal that reads back to it is [m * 10^e].
    That decides everything the statement generator does with a number,
    which is to test its truthiness and to print it. *)

Module JsNumber.

Inductive number :=
| NaN
| Infinity (negative : bool)
| Decimal (m : Z) (e : Z).

Definition ofZ (z : Z) : number := Decimal z 0.

(** ToBoolean: [NaN] and zero are falsy. *)
Definition truthy (x : number) : bool :=
  match x with
  | NaN => false
  | Infinity _ => true
  | Decimal m _ => negb (m =? 0)%Z
  end.

Definition zero : char16 := 48%N.

Fixpoint dropZeros (rev_digits : jsstring) : jsstring :=
  match rev_digits with
  | c :: l => if (c =? zero)%N then dropZeros l else rev_digits
  | [] => []
  end.

(** Number::toString for a positive [m * 10^e], in radix 10: [s] is the
    digit string without trailing zeros, [k] its length, and the value is
    [0.s * 10^n]. *)
Definition positiveToString (m : N) (e : Z) : jsstring :=
  let all := digits m in
  let s := rev (dropZeros (rev all)) in
  let k := Z.of_nat (length s) in
  let n := (Z.of_nat (length all) + e)%Z in
  if ((k <=? n) && (n <=? 21))%Z then
    s ++ repeat zero (Z.to_nat (n - k))
  else if ((0 <? n) && (n <=? 21))%Z then
    firstn (Z.to_nat n) s ++ js "." ++ skipn (Z.to_nat n) s
  else if ((-6 <? n) && (n <=? 0))%Z then
    js "0." ++ repeat zero (Z.to_nat (- n)) ++ s
  else
    let exponent :=
      js "e" ++ (if (n - 1 <? 0)%Z then js "-" else js "+")
             ++ digits (Z.abs_N (n - 1)) in
    match s with
    | [d] => [d] ++ exponent
    | d :: more => [d] ++ js "." ++ more ++ exponent
    | [] => []
    end.

(** Number::toString, as string concatenation and template literals apply
    it. *)
Definition toString (x : number) : jsstring :=
  match x with
  | NaN => js "NaN"
  | Infinity false => js "Infinity"
  | Infinity true => js "-Infinity"
  | Decimal m e =>
      if (m =? 0)%Z then js "0"
      else if (m <? 0)%Z then js "-" ++ positiveToString (Z.abs_N m) e
      else positiveToString (Z.abs_N m) e
  end.

(** SerializeJSONProperty of a number: not finite gives [null]. *)
Definition toJSON (x : number) : jsstring :=
  match x with
  | NaN | Infinity _ => js "null"
  | _ => toString x
  end.

End JsNumber.

(** The result record shared by the two validators:
    [{ valid: boolean; error?: string }]. *)
Record validation := mkValidation { valid : bool; error : option jsstring }.

(** ** middleware/device-control.ts *)

Module DeviceControl.

(** [DEFAULT_CONFIRM_ACTIONS]: default critical actions that require
    confirmation. *)
Definition DEFAULT_CONFIRM_ACTIONS : list jsstring :=
  [js "takeoff"; js "land"; js "return_home"; js "stop"].

(** [DeviceControlMiddlewareOptions]; the device API configuration plays no
    part in what follows and is kept abstract. *)
Record DeviceControlMiddlewareOptions (DeviceConfig : Type) := mkOptions {
  deviceApi : DeviceConfig;
  allowedActions : option (list jsstring);
  requireConfirmation : option (list jsstring)
}.

(** The object the factory returns: [{ name: "DeviceControlMiddleware" }]. *)
Record AgentMiddleware := mkMiddleware { name : jsstring }.

(** [createDeviceControlMiddleware]: the options are destructured, with
    [requireConfirmation] defaulting to [DEFAULT_CONFIRM_ACTIONS], and the
    placeholder object is returned. *)
Definition createDeviceControlMiddleware (DeviceConfig : Type)
    (options : DeviceControlMiddlewareOptions DeviceConfig) : AgentMiddleware :=
  let deviceApi' := deviceApi options in
  let allowedActions' := allowedActions options in
  let requireConfirmation' :=
    match requireConfirmation options with
    | Some l => l
    | None => DEFAULT_CONFIRM_ACTIONS
    end in
  mkMiddleware (js "DeviceControlMiddleware").

(** The local [validActions] of [validateDeviceCommand]. *)
Definition validActions : list jsstring :=
  [js "takeoff"; js "land"; js "move_to"; js "return_home"; js "pause";
   js "resume"; js "stop"; js "capture_photo"; js "start_video";
   js "stop_video"; js "set_altitude"; js "set_speed"; js "custom"].

(** [validateDeviceCommand(action, allowedActions?)]. *)
Definition validateDeviceCommand (action : jsstring)
    (allowedActions : option (list jsstring)) : validation :=
  if negb (includes validActions action) then
    mkValidation false
      (Some (js "Invalid action: " ++ action ++ js ". Valid actions: "
             ++ join (js ", ") validActions))
  else
    match allowedActions with
    | Some allowed =>
        if negb (includes allowed action) then
          mkValidation false (Some (js "Action not allowed: " ++ action))
        else mkValidation true None
    | None => mkValidation true None
    end.

End DeviceControl.

(** ** The trajectory middleware: stop detection

    Numbers are the rationals they denote, and arithmetic on them is exact:
    the rounding of the one division, by 1000, is left out.  [None] stands
    for [NaN], which arises here only from the time value of an invalid
    date. *)

Module Trajectory.

(** [TrajectoryPoint], with the fields of [GeoPoint] it extends. *)
Record TrajectoryPoint := mkPoint {
  longitude : Q;
  latitude : Q;
  altitude : option Q;
  timestamp : Date;
  speed : option Q;
  heading : option Q;
  accuracy : option Q
}.

(** The two loop variables of [detectStopPoints]. *)
Record loopState := mkLoop {
  stopStart : option nat;
  stopPoints : list nat
}.

(** [(new Date(endPoint.timestamp).getTime()
      - new Date(startPoint.timestamp).getTime()) / 1000]. *)
Definition duration (startPoint endPoint : TrajectoryPoint) : option Q :=
  match getTime (newDate (timestamp endPoint)),
        getTime (newDate (timestamp startPoint)) with
  | Some e, Some s => Some (inject_Z (e - s) / inject_Z 1000)%Q
  | _, _ => None
  end.

(** [a >= b], false when [a] is [NaN]. *)
Definition num_ge (a : option Q) (b : Q) : bool :=
  match a with Some x => Qle_bool b x | None => false end.

(** [points[i - 1]]: there is nothing at index -1. *)
Definition before (points : list TrajectoryPoint) (i : nat) : option TrajectoryPoint :=
  match i with O => None | S j => nth_error points j end.

(** One iteration of the [for] loop, at index [i]. *)
Definition loopBody (points : list TrajectoryPoint)
    (speedThreshold durationThreshold : Q) (st : loopState) (i : nat) : loopState :=
  let point := nth_error points i in
  let speed :=
    match point with
    | Some p => match speed p with Some v => v | None => 0%Q end
    | None => 0%Q
    end in
  if Qle_bool speed speedThreshold then
    match stopStart st with
    | None => mkLoop (Some i) (stopPoints st)
    | Some _ => st
    end
  else
    match stopStart st with
    | Some s =>
        let startPoint := nth_error points s in
        let endPoint := before points i in
        let pushed :=
          match startPoint, endPoint with
          | Some sp, Some ep =>
              if num_ge (duration sp ep) durationThreshold
              then stopPoints st ++ [s]
              else stopPoints st
          | _, _ => stopPoints st
          end in
        mkLoop None pushed
    | None => st
    end.

(** The loop, run from index 0 up to (not including) index [n]. *)
Definition loopUpTo (points : list TrajectoryPoint)
    (speedThreshold durationThreshold : Q) (n : nat) : loopState :=
  fold_left (loopBody points speedThreshold durationThreshold)
            (seq 0 n) (mkLoop None []).

(** The default values of the two optional parameters. *)
Definition defaultSpeedThreshold : Q := (5 # 10)%Q.
Definition defaultDurationThreshold : Q := 60%Q.

(** [detectStopPoints(points, speedThreshold = 0.5, durationThreshold = 60)]. *)
Definition detectStopPoints (points : list TrajectoryPoint)
    (speedThreshold durationThreshold : option Q) : list nat :=
  let sT := match speedThreshold with Some v => v | None => defaultSpeedThreshold end in
  let dT := match durationThreshold with Some v => v | None => defaultDurationThreshold end in
  stopPoints (loopUpTo points sT dT (length points)).

(** *** Vocabulary of the statements about [detectStopPoints] *)

(** The speed a point counts with: its recorded speed, 0 when absent. *)
Definition speedOf (p : TrajectoryPoint) : Q :=
  match speed p with Some v => v | None => 0%Q end.

(** A point is stopped when that speed is at most the threshold. *)
Definition stopped (speedThreshold : Q) (p : TrajectoryPoint) : bool :=
  Qle_bool (speedOf p) speedThreshold.

Section Runs.

Variable points : list TrajectoryPoint.
Variables speedThreshold durationThreshold : Q.

Definition stoppedAt (j : nat) : Prop :=
  exists p, nth_error points j = Some p /\ stopped speedThreshold p = true.

Definition movingAt (j : nat) : Prop :=
  exists p, nth_error points j = Some p /\ stopped speedThreshold p = false.

(** The points from index [s] to index [e] are a run of stopped points
    that cannot be extended to the left. *)
Definition runFrom (s e : nat) : Prop :=
  s <= e /\ (forall j, s <= j <= e -> stoppedAt j) /\ (forall j, S j = s -> movingAt j).

(** The time span of the run, last timestamp minus first, is at least the
    duration threshold. *)
Definition spanAtLeast (s e : nat) : Prop :=
  exists sp ep, nth_error points s = Some sp /\ nth_error points e = Some ep
                /\ num_ge (duration sp ep) durationThreshold = true.

(** A closed run: the point after it exists and is moving. *)
Definition closedRun (s e : nat) : Prop := runFrom s e /\ movingAt (S e).

(** A trailing run: it ends with the input. *)
Definition trailingRun (s e : nat) : Prop := runFrom s e /\ S e = length points.

(** A maximal run is a run that cannot be extended to the right either:
    it is closed or trailing. *)
Definition maximalRun (s e : nat) : Prop := closedRun s e \/ trailingRun s e.

(** What the loop variables hold after the points before index [n]:
    [stopStart] is the start of the run of stopped points that reaches
    index [n - 1], if there is one, and [stopPoints] holds the starts of
    the closed runs, long enough, whose closing point is before [n]. *)
Definition invariant (n : nat) (st : loopState) : Prop :=
  match stopStart st with
  | Some s => s < n /\ (forall j, s <= j < n -> stoppedAt j)
              /\ (forall j, S j = s -> movingAt j)
  | None => forall j, S j = n -> movingAt j
  end
  /\ forall i, In i (stopPoints st)
              <-> exists e, S e < n /\ closedRun i e /\ spanAtLeast i e.

End Runs.

(** *** Sample trajectories *)

Definition sample (seconds : Z) (v : Q) : TrajectoryPoint :=
  mkPoint 0%Q 0%Q None (ValidDate (seconds * 1000)%Z) (Some v) None None.

(** Parked for two minutes, until the recording ends. *)
Definition parked : list TrajectoryPoint := [sample 0 0%Q; sample 120 0%Q].

(** A stop of 60 seconds, a move, and a stop of 130 seconds that lasts
    until the recording ends. *)
Definition twoStops : list TrajectoryPoint :=
  [sample 0 0%Q; sample 60 (1 # 2)%Q; sample 61 3%Q; sample 70 0%Q; sample 200 0%Q].

End Trajectory.

(** ** backends/postgis.ts: [DeviceBackend.fetch], the retrying request

    Waits and timeouts are whole milliseconds.  The network is an oracle
    giving the outcome of each physical attempt; the executor's activity is
    the sequence of requests it issues and delays it awaits. *)

Module DeviceBackend.

(** The [retry] field of [DeviceConfig] and its [timeout]. *)
Record RetryConfig := mkRetry { maxAttempts : Z; minWait : Z; maxWait : Z }.

Record DeviceConfig := mkConfig {
  endpoint : jsstring;
  apiKey : option jsstring;
  timeout : option Z;
  retry : option RetryConfig
}.

(** The constructor fills in the defaults. *)
Definition defaultRetry : RetryConfig := mkRetry 3 1000 10000.

Definition configTimeout (config : DeviceConfig) : Z :=
  match timeout config with Some t => t | None => 30000 end.

Definition configRetry (config : DeviceConfig) : RetryConfig :=
  match retry config with Some r => r | None => defaultRetry end.

(** A [Response], as far as [fetch] looks at it. *)
Record Response := mkResponse { status : Z; statusText : jsstring; body : jsstring }.

(** [response.ok]: the status is in the range 200-299. *)
Definition ok (r : Response) : bool := (200 <=? status r)%Z && (status r <=? 299)%Z.

(** An [Error] object: one made by [new Error(message)], or the error
    that [AbortSignal.timeout] throws for a delay it refuses (a
    [RangeError] of the runtime, whose message the source does not fix). *)
Inductive Error :=
| mkError (message : jsstring)
| SignalError (delay : Z).

(** [AbortSignal.timeout(delay)] takes a whole number of milliseconds from
    0 to 4294967295 and throws for any other. *)
Definition signalAccepts (delay : Z) : bool :=
  (0 <=? delay)%Z && (delay <=? 4294967295)%Z.

(** What one call of the global [fetch] does: it resolves with a response,
    or rejects with an [Error] (a network failure, the timeout signal
    aborting) or with some other value, given here by its [String(..)]. *)
Inductive outcome :=
| Resolves (r : Response)
| RejectsError (e : Error)
| RejectsOther (text : jsstring).

(** What the executor does, in order. *)
Inductive event :=
| Request (attempt : Z) (signalTimeout : Z)
| Wait (waitTime : Z).

(** How the call ends: [return response] or [throw lastError]; [lastError]
    is still [null] when the loop body never ran. *)
Inductive completion :=
| Returns (r : Response)
| Throws (lastError : option Error).

(** [Math.min(minWait * Math.pow(2, attempt - 1), maxWait)]. *)
Definition waitTime (r : RetryConfig) (attempt : Z) : Z :=
  Z.min (minWait r * 2 ^ (attempt - 1)) (maxWait r).

(** The error an unsuccessful attempt leaves in [lastError]. *)
Definition errorOf (o : outcome) : Error :=
  match o with
  | Resolves r =>
      mkError (js "HTTP " ++ decimal (status r) ++ js ": " ++ statusText r)
  | RejectsError e => e
  | RejectsOther text => mkError text
  end.

(** The values [attempt] takes: [1, 2, ..., maxAttempts]. *)
Definition attemptNumbers (r : RetryConfig) : list Z :=
  map Z.of_nat (seq 1 (Z.to_nat (maxAttempts r))).

(** The response an attempt is accepted with, if it is: [fetch] resolved
    and [response.ok] holds. *)
Definition accepted (o : outcome) : option Response :=
  match o with
  | Resolves r => if ok r then Some r else None
  | _ => None
  end.

(** The call of the global [fetch] in the [try] block.  Its argument is
    evaluated first, [AbortSignal.timeout(this.config.timeout!)] with it:
    when that throws, nothing is requested and the network is not asked;
    the [catch] gets the signal's error as it gets a rejection. *)
Definition attempted (config : DeviceConfig) (network : Z -> outcome) (attempt : Z)
    : list event * outcome :=
  if signalAccepts (configTimeout config)
  then ([Request attempt (configTimeout config)], network attempt)
  else ([], RejectsError (SignalError (configTimeout config))).

(** The [for] loop over the remaining values of [attempt]. *)
Fixpoint attemptLoop (config : DeviceConfig) (network : Z -> outcome)
    (attempts : list Z) (lastError : option Error) : list event * completion :=
  match attempts with
  | [] => ([], Throws lastError)
  | attempt :: later =>
      let (tried, o) := attempted config network attempt in
      match accepted o with
      | Some r => (tried, Returns r)
      | None =>
          let lastError' := Some (errorOf o) in
          let pause :=
            if (attempt <? maxAttempts (configRetry config))%Z
            then [Wait (waitTime (configRetry config) attempt)]
            else [] in
          let (evs, c) := attemptLoop config network later lastError' in
          (tried ++ pause ++ evs, c)
      end
  end.

(** [DeviceBackend.fetch]. *)
Definition fetch (config : DeviceConfig) (network : Z -> outcome)
    : list event * completion :=
  attemptLoop config network (attemptNumbers (configRetry config)) None.

(** *** Vocabulary of the statements about [fetch] *)

(** The activity of [k] attempts with a delay after each but the last:
    request 1, wait, request 2, wait, ..., request [k]. *)
Definition failedAttempt (config : DeviceConfig) (a : nat) : list event :=
  let r := configRetry config in
  [Request (Z.of_nat a) (configTimeout config);
   Wait (Z.min (minWait r * 2 ^ (Z.of_nat a - 1)) (maxWait r))].

Definition schedule (config : DeviceConfig) (k : nat) : list event :=
  flat_map (failedAttempt config) (seq 1 (k - 1))
  ++ [Request (Z.of_nat k) (configTimeout config)].

(** The activity of [k] iterations in which nothing is requested: the
    delays alone, one after each iteration but the last. *)
Definition delays (config : DeviceConfig) (k : nat) : list event :=
  map (fun a => Wait (waitTime (configRetry config) (Z.of_nat a))) (seq 1 (k - 1)).

Definition isRequest (e : event) : bool :=
  match e with Request _ _ => true | Wait _ => false end.

(** The number of physical attempts in an activity. *)
Definition requests (evs : list event) : nat := length (filter isRequest evs).

(** *** A sample device API

    It answers 503, then drops the connection, then answers 200. *)
Definition flaky (attempt : Z) : outcome :=
  if (attempt =? 1)%Z then Resolves (mkResponse 503 (js "Service Unavailable") [])
  else if (attempt =? 2)%Z then RejectsError (mkError (js "fetch failed"))
  else Resolves (mkResponse 200 (js "OK") (js "{}")).

Definition plainConfig : DeviceConfig := mkConfig (js "http://device.local") None None None.

(** A configuration with a timeout that [AbortSignal.timeout] refuses. *)
Definition refusedTimeout : DeviceConfig :=
  mkConfig (js "http://device.local") None (Some (-1)%Z) None.

End DeviceBackend.

(** ** Regular expressions

    The fragment of ECMAScript regular expressions that the sources use: a
    sequence of single-character terms ([c], [\s], [\w]), each taken once
    or under a greedy [*] or [+], the assertion [\b], and one capturing
    group.  Matching is by backtracking with continuations, as the language
    defines it. *)

Module Regex.

(** [\s]: WhiteSpace and LineTerminator code points. *)
Definition is_space (c : char16) : bool :=
  ((9 <=? c) && (c <=? 13) || (c =? 32) || (c =? 160) || (c =? 5760)
   || ((8192 <=? c) && (c <=? 8202)) || (c =? 8232) || (c =? 8233)
   || (c =? 8239) || (c =? 8287) || (c =? 12288) || (c =? 65279))%N.

(** [\w]: [[A-Za-z0-9_]]. *)
Definition is_word (c : char16) : bool :=
  is_upper c || is_lower c || is_digit c || (c =? 95)%N.

(** Canonicalize of a regular expression with the [i] flag and without the
    [u] flag.  It is compared against ASCII pattern characters only, and no
    code unit outside ASCII canonicalizes into ASCII. *)
Definition canonicalize (c : char16) : char16 := upper c.

Inductive cclass :=
| Chr (c : char16)
| Space
| Word.

Definition cc_matches (ignoreCase : bool) (cc : cclass) (c : char16) : bool :=
  match cc with
  | Chr p =>
      if ignoreCase then (canonicalize c =? canonicalize p)%N else (c =? p)%N
  | Space => is_space c
  | Word => is_word c
  end.

Inductive node :=
| One (cc : cclass)
| Star (cc : cclass)
| Plus (cc : cclass)
| WordBoundary
| GroupOpen
| GroupClose.

(** A regular expression object: its source text, its terms and its flags. *)
Record regex := mkRegex {
  source : jsstring;
  nodes : list node;
  ignoreCase : bool;
  global : bool
}.

(** The matcher's state: the code unit before the current position, the
    input from the current position on, the input as it was where the
    group opened, and the group's capture once it has closed. *)
Record mstate := mkState {
  prev : option char16;
  rest : jsstring;
  opened : option jsstring;
  group1 : option jsstring
}.

Definition cont := mstate -> option mstate.

Definition is_word_opt (c : option char16) : bool :=
  match c with Some x => is_word x | None => false end.

(** [\b]: exactly one side of the current position is a word character. *)
Definition at_boundary (st : mstate) : bool :=
  xorb (is_word_opt (prev st)) (is_word_opt (hd_error (rest st))).

(** One character of class [cc], then the continuation. *)
Definition one (i : bool) (cc : cclass) (k : cont) : cont :=
  fun st =>
    match rest st with
    | c :: s' =>
        if cc_matches i cc c
        then k (mkState (Some c) s' (opened st) (group1 st))
        else None
    | [] => None
    end.

(** Greedy repetition: as many characters of class [cc] as possible, giving
    them back one at a time while the continuation fails. *)
Fixpoint star (i : bool) (cc : cclass) (k : cont) (p : option char16)
    (s : jsstring) (o g : option jsstring) : option mstate :=
  match s with
  | c :: s' =>
      if cc_matches i cc c then
        match star i cc k (Some c) s' o g with
        | Some r => Some r
        | None => k (mkState p s o g)
        end
      else k (mkState p s o g)
  | [] => k (mkState p s o g)
  end.

Definition starK (i : bool) (cc : cclass) (k : cont) : cont :=
  fun st => star i cc k (prev st) (rest st) (opened st) (group1 st).

(** The text between the position where the group opened and [st]. *)
Definition captured (st : mstate) : option jsstring :=
  match opened st with
  | Some o => Some (firstn (length o - length (rest st))%nat o)
  | None => None
  end.

Definition step (i : bool) (n : node) (k : cont) : cont :=
  match n with
  | One cc => one i cc k
  | Star cc => starK i cc k
  | Plus cc => one i cc (starK i cc k)
  | WordBoundary => fun st => if at_boundary st then k st else None
  | GroupOpen => fun st => k (mkState (prev st) (rest st) (Some (rest st)) (group1 st))
  | GroupClose => fun st => k (mkState (prev st) (rest st) (opened st) (captured st))
  end.

Fixpoint run (i : bool) (ns : list node) (k : cont) : cont :=
  match ns with
  | [] => k
  | n :: ns' => step i n (run i ns' k)
  end.

(** One attempt to match at the current position. *)
Definition match_at (re : regex) (p : option char16) (s : jsstring) : option mstate :=
  run (ignoreCase re) (nodes re) (fun st => Some st) (mkState p s None None).

(** The leftmost match at or after the current position. *)
Fixpoint search (re : regex) (p : option char16) (s : jsstring) : option mstate :=
  match match_at re p s with
  | Some m => Some m
  | None =>
      match s with
      | [] => None
      | c :: s' => search re (Some c) s'
      end
  end.

(** [RegExp.prototype.test] of an expression without the [g] flag: the
    search starts at the beginning of the string. *)
Definition test (re : regex) (s : jsstring) : bool :=
  match search re None s with Some _ => true | None => false end.

(** [RegExp.prototype.exec] of an expression with the [g] flag.  The
    expression's [lastIndex] is the position ([p], [s]) in the input; a
    match leaves [lastIndex] at its end, which is the position ([prev m],
    [rest m]) of the state returned. *)
Definition exec (re : regex) (p : option char16) (s : jsstring) : option mstate :=
  search re p s.

(** The terms of a pattern that is a plain word. *)
Definition word (w : string) : list node := map (fun c => One (Chr c)) (js w).

(** *** Vocabulary of the statements about matching *)

(** The code unit before the position reached by reading [w] from a
    position that [p] precedes. *)
Definition lastOr (p : option char16) (w : jsstring) : option char16 :=
  fold_left (fun _ c => Some c) w p.

(** [a] is [b] up to the case of its letters. *)
Definition sameLetters (a b : jsstring) : Prop :=
  map canonicalize a = map canonicalize b.

Definition spaces (ws : jsstring) : Prop := Forall (fun c => is_space c = true) ws.
Definition wordChars (w : jsstring) : Prop := Forall (fun c => is_word c = true) w.

Definition allOf (i : bool) (cc : cclass) (u : jsstring) : Prop :=
  Forall (fun c => cc_matches i cc c = true) u.

(** The strings a sequence of terms matches, for terms that consume
    characters. *)
Fixpoint Lang (i : bool) (ns : list node) (w : jsstring) : Prop :=
  match ns with
  | [] => w = []
  | One cc :: r =>
      exists c w', w = c :: w' /\ cc_matches i cc c = true /\ Lang i r w'
  | Star cc :: r =>
      exists u v, w = u ++ v /\ allOf i cc u /\ Lang i r v
  | Plus cc :: r =>
      exists c u v, w = c :: u ++ v /\ cc_matches i cc c = true
                    /\ allOf i cc u /\ Lang i r v
  | _ :: _ => False
  end.

Definition consuming (n : node) : Prop :=
  match n with One _ | Star _ | Plus _ => True | _ => False end.

(** The expression matches somewhere in [s]. *)
Definition Occurs (re : regex) (s : jsstring) : Prop :=
  exists pre w post, s = pre ++ w ++ post /\ Lang (ignoreCase re) (nodes re) w.

End Regex.

(** ** middleware/index.ts: [validateSQLQuery] *)

Module SpatialQueryMiddleware.

Import Regex.

(** [DEFAULT_ALLOWED_TABLES]. *)
Definition DEFAULT_ALLOWED_TABLES : list jsstring :=
  [js "drone_trajectory"; js "device_status"; js "mission_log";
   js "geo_fence"; js "telemetry_data"; js "spatial_index"].

(** [SpatialQueryMiddlewareOptions]; the PostGIS configuration is kept
    abstract. *)
Record SpatialQueryMiddlewareOptions (PostGISConfig : Type) := mkSQOptions {
  postgis : PostGISConfig;
  allowedTables : option (list jsstring);
  maxRows : option JsNumber.number
}.

(** [createSpatialQueryMiddleware]: the options are destructured,
    [allowedTables] defaulting to [DEFAULT_ALLOWED_TABLES] and [maxRows] to
    1000, and the placeholder object is returned. *)
Definition createSpatialQueryMiddleware (PostGISConfig : Type)
    (options : SpatialQueryMiddlewareOptions PostGISConfig)
    : DeviceControl.AgentMiddleware :=
  let postgis' := postgis options in
  let allowedTables' :=
    match allowedTables options with
    | Some l => l
    | None => DEFAULT_ALLOWED_TABLES
    end in
  let maxRows' :=
    match maxRows options with Some n => n | None => JsNumber.ofZ 1000 end in
  DeviceControl.mkMiddleware (js "SpatialQueryMiddleware").

(** [/;\s*VERB\s+/i]. *)
Definition stacked (verb : string) : regex :=
  mkRegex (js ";\s*" ++ js verb ++ js "\s+")
          ([One (Chr 59%N); Star Space] ++ word verb ++ [Plus Space])
          true false.

(** [/Q\s*or\s+Q1Q\s*=\s*Q1/i] for a quote character [Q]. *)
Definition tautology (q : char16) : regex :=
  mkRegex ([q] ++ js "\s*or\s+" ++ [q] ++ js "1" ++ [q] ++ js "\s*=\s*" ++ [q] ++ js "1")
          ([One (Chr q); Star Space] ++ word "or"
           ++ [Plus Space; One (Chr q); One (Chr 49%N); One (Chr q); Star Space;
               One (Chr 61%N); Star Space; One (Chr q); One (Chr 49%N)])
          true false.

(** [/union\s+select/i]. *)
Definition unionSelect : regex :=
  mkRegex (js "union\s+select")
          (word "union" ++ [Plus Space] ++ word "select")
          true false.

(** The local [dangerousPatterns]. *)
Definition dangerousPatterns : list regex :=
  [stacked "drop"; stacked "delete"; stacked "update"; stacked "insert";
   stacked "truncate"; stacked "alter";
   tautology 39%N; tautology dquote;
   unionSelect].

(** [/\bfrom\s+(\w+)/gi]. *)
Definition tablePattern : regex :=
  mkRegex (js "\bfrom\s+(\w+)")
          ([WordBoundary] ++ word "from" ++ [Plus Space; GroupOpen; Plus Word; GroupClose])
          true true.

(** The [for] loop over the patterns: the result it returns early with, if
    it does. *)
Fixpoint patternLoop (patterns : list regex) (sql : jsstring) : option validation :=
  match patterns with
  | [] => None
  | pattern :: later =>
      if test pattern sql then
        Some (mkValidation false
                (Some (js "Potentially dangerous SQL pattern detected: "
                       ++ source pattern)))
      else patternLoop later sql
  end.

(** The [while] loop over the matches of [tablePattern], from the position
    ([p], [s]).  Every match is at least six code units long, so the loop
    runs at most [length s] times: [fuel] above that is never used up. *)
Fixpoint tableLoop (fuel : nat) (allowedTables : list jsstring)
    (p : option char16) (s : jsstring) : option validation :=
  match fuel with
  | O => None
  | S fuel' =>
      match exec tablePattern p s with
      | None => Some (mkValidation true None)
      | Some m =>
          let tableName := option_map toLowerCase (group1 m) in
          match tableName with
          | Some t =>
              if truthy_str t && negb (includes allowedTables t) then
                Some (mkValidation false
                        (Some (js "Table not in allowed list: " ++ t)))
              else tableLoop fuel' allowedTables (prev m) (rest m)
          | None => tableLoop fuel' allowedTables (prev m) (rest m)
          end
      end
  end.

(** [validateSQLQuery(sql, allowedTables)]; [None] would mean that the
    [while] loop did not come to an end, which does not happen
    ([validateSQLQuery_total]). *)
Definition validateSQLQuery (sql : jsstring) (allowedTables : list jsstring)
    : option validation :=
  match patternLoop dangerousPatterns sql with
  | Some r => Some r
  | None => tableLoop (S (length sql)) allowedTables None sql
  end.

(** *** Vocabulary of the statements about [validateSQLQuery] *)

(** The two results that reject a statement. *)
Definition patternError (pattern : regex) : validation :=
  mkValidation false
    (Some (js "Potentially dangerous SQL pattern detected: " ++ source pattern)).

Definition tableError (tableName : jsstring) : validation :=
  mkValidation false (Some (js "Table not in allowed list: " ++ tableName)).

(** The verbs of the six stacked-statement patterns. *)
Definition verbs : list string :=
  ["drop"; "delete"; "update"; "insert"; "truncate"; "alter"]%string.

(** What the forbidden patterns look for in a statement, letter case
    aside:
    - a semicolon, optional white space, one of the six verbs and white
      space after it;
    - a quote (single or double), optional white space, [or], white space,
      the quoted [1], an equals sign with optional white space around it,
      and the quote and [1] again;
    - [union], white space and [select]. *)
Inductive Forbidden (sql : jsstring) : Prop :=
| StackedVerb (verb : string) (pre ws v ws' post : jsstring) :
    In verb verbs -> sameLetters v (js verb) ->
    spaces ws -> spaces ws' -> ws' <> [] ->
    sql = pre ++ js ";" ++ ws ++ v ++ ws' ++ post ->
    Forbidden sql
| QuotedTautology (q : char16) (pre ws1 o ws2 ws3 ws4 post : jsstring) :
    q = 39%N \/ q = dquote -> sameLetters o (js "or") ->
    spaces ws1 -> spaces ws2 -> ws2 <> [] -> spaces ws3 -> spaces ws4 ->
    sql = pre ++ [q] ++ ws1 ++ o ++ ws2 ++ [q] ++ js "1" ++ [q]
              ++ ws3 ++ js "=" ++ ws4 ++ [q] ++ js "1" ++ post ->
    Forbidden sql
| UnionSelect (pre u ws sel post : jsstring) :
    sameLetters u (js "union") -> spaces ws -> ws <> [] ->
    sameLetters sel (js "select") ->
    sql = pre ++ u ++ ws ++ sel ++ post ->
    Forbidden sql.

(** At a position that [p] precedes, the input [s] begins with a FROM
    clause naming [w]: the word [from] in any letter case, not preceded by
    a word character, then white space, then the word [w] in full;
    [post] is the input after it. *)
Definition fromClause (p : option char16) (s w post : jsstring) : Prop :=
  exists f ws,
    s = f ++ ws ++ w ++ post /\ sameLetters f (js "from")
    /\ is_word_opt p = false
    /\ spaces ws /\ ws <> []
    /\ wordChars w /\ w <> []
    /\ is_word_opt (hd_error post) = false.

(** The input from the position ([p], [s]) on names the table [t] in a
    FROM clause. *)
Definition namesTableFrom (p : option char16) (s t : jsstring) : Prop :=
  exists pre s' w post,
    s = pre ++ s' /\ fromClause (lastOr p pre) s' w post /\ t = toLowerCase w.

(** The statement names the table [t] in a FROM clause. *)
Definition namesTable (sql t : jsstring) : Prop := namesTableFrom None sql t.

(** The state a match of [tablePattern] ends in: the position after the
    table name [w], which is the capture. *)
Definition tableMatch (w post : jsstring) : mstate :=
  mkState (lastOr None w) post (Some (w ++ post)) (Some w).

(** The terms after [\bfrom], as continuations. *)
Definition afterName : cont := step true GroupClose (fun st => Some st).
Definition afterSpace : cont :=
  step true GroupOpen (one true Word (starK true Word afterName)).

(** *** Sample statements *)

Definition plainDelete : jsstring := js "DELETE FROM drone_trajectory WHERE id = 1".
Definition stackedDrop : jsstring :=
  js "SELECT 1;" ++ [10%N] ++ js "Drop  TABLE mission_log".
Definition fromSecrets : jsstring := js "SELECT * FROM secrets WHERE id = 1".
Definition fromSecretsStacked : jsstring := js "SELECT * FROM secrets; DROP TABLE secrets".

End SpatialQueryMiddleware.

(** ** backends/postgis.ts: [PostGISBackend.generateSQL] *)

Module PostGIS.

Import JsNumber.

(** *** [Date.prototype.toISOString] *)

(** [padStart(width, "0")] of the digits of [n]. *)
Definition pad (width : nat) (n : Z) : jsstring :=
  let ds := digits (Z.abs_N n) in
  repeat zero (width - length ds) ++ ds.

(** Year, month and day of a day number counted from the epoch, in the
    proleptic Gregorian calendar. *)
Definition civil (day : Z) : Z * Z * Z :=
  let z := (day + 719468)%Z in
  let era := (z / 146097)%Z in
  let doe := (z - era * 146097)%Z in
  let yoe := ((doe - doe / 1460 + doe / 36524 - doe / 146096) / 365)%Z in
  let doy := (doe - (365 * yoe + yoe / 4 - yoe / 100))%Z in
  let mp := ((5 * doy + 2) / 153)%Z in
  let d := (doy - (153 * mp + 2) / 5 + 1)%Z in
  let m := (if mp <? 10 then mp + 3 else mp - 9)%Z in
  let y := (yoe + era * 400 + (if m <=? 2 then 1 else 0))%Z in
  (y, m, d).

(** The year: four digits, or a sign and six digits outside 0..9999. *)
Definition isoYear (y : Z) : jsstring :=
  if ((0 <=? y) && (y <=? 9999))%Z then pad 4 y
  else (if (y <? 0)%Z then js "-" else js "+") ++ pad 6 y.

(** [toISOString]; it throws a [RangeError] on the invalid date, which is
    [None] here. *)
Definition toISOString (d : Date) : option jsstring :=
  match d with
  | InvalidDate => None
  | ValidDate t =>
      let day := (t / 86400000)%Z in
      let ms := (t mod 86400000)%Z in
      let '(y, m, dd) := civil day in
      Some (isoYear y ++ js "-" ++ pad 2 m ++ js "-" ++ pad 2 dd ++ js "T"
            ++ pad 2 (ms / 3600000) ++ js ":"
            ++ pad 2 (ms / 60000 mod 60) ++ js ":"
            ++ pad 2 (ms / 1000 mod 60) ++ js "."
            ++ pad 3 (ms mod 1000) ++ js "Z")
  end.

(** *** [JSON.stringify] of a geometry *)

Definition hexDigit (n : N) : char16 :=
  (if n <? 10 then 48 + n else 87 + n)%N.

(** [\uXXXX], in lower-case hexadecimal. *)
Definition unicodeEscape (c : char16) : jsstring :=
  js "\u" ++ [hexDigit (c / 4096 mod 16); hexDigit (c / 256 mod 16);
              hexDigit (c / 16 mod 16); hexDigit (c mod 16)]%N.

Definition isLeadSurrogate (c : char16) : bool := (55296 <=? c)%N && (c <=? 56319)%N.
Definition isTrailSurrogate (c : char16) : bool := (56320 <=? c)%N && (c <=? 57343)%N.

(** The characters of QuoteJSONString between the quotes. *)
Fixpoint quoteBody (s : jsstring) : jsstring :=
  match s with
  | [] => []
  | c :: s' =>
      if (c =? 8)%N then js "\b" ++ quoteBody s'
      else if (c =? 9)%N then js "\t" ++ quoteBody s'
      else if (c =? 10)%N then js "\n" ++ quoteBody s'
      else if (c =? 12)%N then js "\f" ++ quoteBody s'
      else if (c =? 13)%N then js "\r" ++ quoteBody s'
      else if (c =? dquote)%N then js "\" ++ [dquote] ++ quoteBody s'
      else if (c =? 92)%N then js "\\" ++ quoteBody s'
      else if (c <? 32)%N then unicodeEscape c ++ quoteBody s'
      else if isLeadSurrogate c then
        match s' with
        | c' :: s'' =>
            if isTrailSurrogate c' then c :: c' :: quoteBody s''
            else unicodeEscape c ++ quoteBody s'
        | [] => unicodeEscape c
        end
      else if isTrailSurrogate c then unicodeEscape c ++ quoteBody s'
      else c :: quoteBody s'
  end.

Definition quoteJSON (s : jsstring) : jsstring := [dquote] ++ quoteBody s ++ [dquote].

(** An array, its elements already serialized. *)
Definition jsonArray (elements : list jsstring) : jsstring :=
  js "[" ++ join (js ",") elements ++ js "]".

(** [coordinates: number[] | number[][] | number[][][]]. *)
Inductive coordinates :=
| Coords1 (c : list number)
| Coords2 (c : list (list number))
| Coords3 (c : list (list (list number))).

Definition json1 (c : list number) : jsstring := jsonArray (map toJSON c).
Definition json2 (c : list (list number)) : jsstring := jsonArray (map json1 c).
Definition json3 (c : list (list (list number))) : jsstring := jsonArray (map json2 c).

Definition coordinatesJSON (c : coordinates) : jsstring :=
  match c with
  | Coords1 c => json1 c
  | Coords2 c => json2 c
  | Coords3 c => json3 c
  end.

(** The [geometry] of a query: [{ type, coordinates }]. *)
Record Geometry := mkGeometry { gtype : jsstring; gcoordinates : coordinates }.

Definition JSON_stringify (g : Geometry) : jsstring :=
  js "{" ++ quoteJSON (js "type") ++ js ":" ++ quoteJSON (gtype g)
  ++ js "," ++ quoteJSON (js "coordinates") ++ js ":"
  ++ coordinatesJSON (gcoordinates g) ++ js "}".

(** *** [SpatialQuery] (types.ts) *)

Inductive QueryType := point | polygon | circle | bbox | trajectory.

Record TimeRange := mkTimeRange { start : Date; end' : Date }.

Inductive Direction := asc | desc.

(** [direction.toUpperCase()]. *)
Definition directionUpper (d : Direction) : jsstring :=
  match d with asc => js "ASC" | desc => js "DESC" end.

Record OrderBy := mkOrderBy { field : jsstring; direction : Direction }.

(** The optional [filters], which nothing reads, are left out. *)
Record SpatialQuery := mkQuery {
  type : QueryType;
  timeRange : option TimeRange;
  geometry : option Geometry;
  select : option (list jsstring);
  orderBy : option (list OrderBy);
  limit : option number
}.

(** How [generateSQL] ends: it returns the statement text, or
    [toISOString] throws. *)
Inductive generated :=
| Statement (sql : jsstring)
| RangeError.

(** The clause each [if] of [generateSQL] appends, empty when its
    condition fails; the time range clause may throw instead. *)

Definition selectClause (query : SpatialQuery) : jsstring :=
  match select query with
  | Some (f :: fs) => join (js ", ") (f :: fs)
  | _ => js "*"
  end.

Definition timeRangeClause (query : SpatialQuery) : option jsstring :=
  match timeRange query with
  | Some r =>
      match toISOString (start r) with
      | Some s =>
          match toISOString (end' r) with
          | Some e =>
              Some (js " AND timestamp BETWEEN '" ++ s ++ js "' AND '" ++ e ++ js "'")
          | None => None
          end
      | None => None
      end
  | None => Some []
  end.

Definition geometryClause (query : SpatialQuery) : jsstring :=
  match geometry query with
  | Some g =>
      let geojson := JSON_stringify g in
      js " AND ST_Within(geom, ST_GeomFromGeoJSON('" ++ geojson ++ js "'))"
  | None => []
  end.

Definition orderByClause (query : SpatialQuery) : jsstring :=
  match orderBy query with
  | Some (o :: os) =>
      let orderClauses :=
        map (fun o => field o ++ js " " ++ directionUpper (direction o)) (o :: os) in
      js " ORDER BY " ++ join (js ", ") orderClauses
  | _ => []
  end.

Definition limitClause (query : SpatialQuery) : jsstring :=
  match limit query with
  | Some n => if truthy n then js " LIMIT " ++ toString n else []
  | None => []
  end.

(** [generateSQL(query)]. *)
Definition generateSQL (query : SpatialQuery) : generated :=
  let sql := js "SELECT " in
  let sql := sql ++ selectClause query in
  let sql := sql ++ js " FROM spatial_data WHERE 1=1" in
  match timeRangeClause query with
  | None => RangeError
  | Some clause =>
      let sql := sql ++ clause in
      let sql := sql ++ geometryClause query in
      let sql := sql ++ orderByClause query in
      let sql := sql ++ limitClause query in
      Statement sql
  end.

(** *** [checkGeoFence]: the statement it builds and the values it binds

    The sibling of [generateSQL] in the same class: the text is a
    constant with the placeholders [$1], [$2], [$3], and the caller's
    values travel apart from it, as the second argument of [executeSQL]. *)

Inductive bindValue :=
| BindNumber (n : number)
| BindString (s : jsstring).

Definition nl : jsstring := [10%N].

Definition checkGeoFenceSQL : jsstring :=
  nl ++ js "      SELECT ST_Within("
  ++ nl ++ js "        ST_SetSRID(ST_MakePoint($1, $2), 4326),"
  ++ nl ++ js "        geom"
  ++ nl ++ js "      ) as within"
  ++ nl ++ js "      FROM geo_fence"
  ++ nl ++ js "      WHERE id = $3"
  ++ nl ++ js "    ".

Definition checkGeoFenceCall (fenceId : jsstring) (longitude latitude : number)
    : jsstring * list bindValue :=
  (checkGeoFenceSQL, [BindNumber longitude; BindNumber latitude; BindString fenceId]).

(** *** Vocabulary of the statements about [generateSQL] *)

(** The range starts after it ends. *)
Definition startsAfterEnd (range : TimeRange) : Prop :=
  exists s e, start range = ValidDate s /\ end' range = ValidDate e /\ (e < s)%Z.

(** *** Sample queries *)

(** 2024-01-01 and 2024-01-02, at midnight UTC. *)
Definition T0 : Date := ValidDate 1704067200000.
Definition T1 : Date := ValidDate 1704153600000.

(** [{ type: "bbox", timeRange: { start: T0, end: T1 }, limit: 5000 }]. *)
Definition limit5000 : SpatialQuery :=
  mkQuery bbox (Some (mkTimeRange T0 T1)) None None None (Some (ofZ 5000)).

(** The same without a limit. *)
Definition unlimited : SpatialQuery :=
  mkQuery bbox (Some (mkTimeRange T0 T1)) None None None None.

(** A time range that starts after it ends. *)
Definition reversedRange : SpatialQuery :=
  mkQuery bbox (Some (mkTimeRange T1 T0)) None None None None.

(** An ordering whose field holds a statement of its own. *)
Definition stackedOrdering : SpatialQuery :=
  mkQuery bbox None None None
          (Some [mkOrderBy (js "id; DROP TABLE mission_log; --") asc])
          (Some (ofZ 5)).

End PostGIS.


(** ** backends/postgis.ts: the other methods of [DeviceBackend]

    Each method issues one logical request through [fetch]; the network
    oracle it is given stands for the endpoint the method addresses. *)

Module DeviceClient.

Import DeviceBackend.

(** How a method that may throw ends: with a value, or with the value
    thrown ([None] is [null], which [fetch] throws when it made no
    attempt). *)
Inductive ended (A : Type) :=
| Done (a : A)
| Raised (e : option Error).

Arguments Done {A} a.
Arguments Raised {A} e.

(** [connect()]: nothing to do when connected; otherwise the API is asked
    for its health and the flag is set once [fetch] has returned.  The
    result is the activity, the flag afterwards and how the call ended. *)
Definition connect (connected : bool) (config : DeviceConfig) (network : Z -> outcome)
    : list event * bool * ended unit :=
  if connected then ([], true, Done tt)
  else
    let (evs, c) := fetch config network in
    match c with
    | Throws e => (evs, false, Raised e)
    | Returns response =>
        if negb (ok response) then
          (evs, false,
           Raised (Some (mkError (js "Failed to connect to device API: "
                                  ++ decimal (status response)))))
        else (evs, true, Done tt)
    end.

(** [cancelCommand(commandId)]: [response.ok], or [false] when [fetch]
    throws. *)
Definition cancelCommand (config : DeviceConfig) (network : Z -> outcome)
    : list event * bool :=
  let (evs, c) := fetch config network in
  match c with
  | Returns response => (evs, ok response)
  | Throws _ => (evs, false)
  end.

Section Json.

(** The values of JSON, and [response.json()] on a body: the value parsed,
    or the error it rejects with. *)
Variable J : Type.
Variable parse : jsstring -> J + Error.

(** [getDevice(deviceId)] and [getCommandStatus(commandId)], which differ
    in the path alone: the parsed body, or [null] (here [None]) when the
    response is not ok or anything throws. *)
Definition getOrNull (config : DeviceConfig) (network : Z -> outcome)
    : list event * option J :=
  let (evs, c) := fetch config network in
  match c with
  | Returns response =>
      if negb (ok response) then (evs, None)
      else match parse (body response) with
           | inl v => (evs, Some v)
           | inr _ => (evs, None)
           end
  | Throws _ => (evs, None)
  end.

Definition getDevice := getOrNull.
Definition getCommandStatus := getOrNull.

(** [sendCommand(command)]: the parsed body of the response; nothing is
    caught. *)
Definition sendCommand (config : DeviceConfig) (network : Z -> outcome)
    : list event * ended J :=
  let (evs, c) := fetch config network in
  match c with
  | Returns response =>
      match parse (body response) with
      | inl v => (evs, Done v)
      | inr e => (evs, Raised (Some e))
      end
  | Throws e => (evs, Raised e)
  end.

End Json.

(** *** Vocabulary of the statements about the methods *)

Definition isWait (e : event) : bool :=
  match e with Wait _ => true | Request _ _ => false end.

(** The number of delays in an activity. *)
Definition waits (evs : list event) : nat := length (filter isWait evs).

(** Attempt [k] is the first one that is accepted, with [response]. *)
Definition firstAccepted (network : Z -> outcome) (k : nat) (response : Response) : Prop :=
  accepted (network (Z.of_nat k)) = Some response
  /\ forall j, 1 <= j < k -> accepted (network (Z.of_nat j)) = None.

(** None of the attempts 1 to [n] is accepted. *)
Definition noneAccepted (network : Z -> outcome) (n : nat) : Prop :=
  forall j, 1 <= j <= n -> accepted (network (Z.of_nat j)) = None.

(** *** Sample configurations *)

(** No attempt at all. *)
Definition noAttempts : DeviceConfig :=
  mkConfig (js "http://device.local") None None (Some (mkRetry 0 1000 10000)).

End DeviceClient.

(** ** backends/postgis.ts: [DeviceBackend.streamTelemetry]

    The body of the response is the sequence of chunks read from it until
    it is done, each already decoded to text. *)

Module Telemetry.

(** [String.prototype.split] with a separator of one code unit. *)
Fixpoint split (sep : char16) (s : jsstring) : list jsstring :=
  match s with
  | [] => [[]]
  | c :: s' =>
      if (c =? sep)%N then [] :: split sep s'
      else match split sep s' with
           | line :: lines => (c :: line) :: lines
           | [] => [[c]]
           end
  end.

(** [String.prototype.startsWith]. *)
Fixpoint startsWith (s prefix : jsstring) : bool :=
  match prefix, s with
  | [], _ => true
  | p :: prefix', c :: s' => (c =? p)%N && startsWith s' prefix'
  | _ :: _, [] => false
  end.

(** [line.slice(5)]. *)
Definition slice5 (line : jsstring) : jsstring := skipn 5 line.

Definition newline : char16 := 10%N.

Section Stream.

(** [JSON.parse]: the value, or [None] when it throws. *)
Variable J : Type.
Variable JSON_parse : jsstring -> option J.

(** What one line yields: the parsed payload of a [data:] line; a parse
    error is ignored. *)
Definition lineValues (line : jsstring) : list J :=
  if startsWith line (js "data:") then
    match JSON_parse (slice5 line) with
    | Some v => [v]
    | None => []
    end
  else [].

(** What one chunk yields: the body of the [while] loop. *)
Definition chunkValues (text : jsstring) : list J :=
  let lines := filter truthy_str (split newline text) in
  flat_map lineValues lines.

(** [streamTelemetry(deviceId)], on a response without a body ([None]) or
    with the chunks given: the values yielded until the body is done, or
    the error thrown. *)
Definition streamTelemetry (body : option (list jsstring))
    : DeviceClient.ended (list J) :=
  match body with
  | None => DeviceClient.Raised (Some (DeviceBackend.mkError (js "Failed to get telemetry stream")))
  | Some chunks => DeviceClient.Done (flat_map chunkValues chunks)
  end.

End Stream.

End Telemetry.

(** ** backends/postgis.ts: [PostGISBackend.executeSpatialQuery]

    The backend's state is its [initialized] flag and what it has written
    to the console; the clock is read three times in a call. *)

Module PostGISBackend.

Import JsNumber PostGIS.

Record backend := mkBackend {
  initialized : bool;
  console : list jsstring
}.

(** A row of a result, as far as [checkGeoFence] reads one. *)
Record row := mkRow { within : option bool }.

(** [initialize()]. *)
Definition initialize (b : backend) : backend :=
  if initialized b then b else mkBackend true (console b).

(** [executeSQL(sql, _params)]: the statement is written to the console
    and no rows come back. *)
Definition executeSQL (b : backend) (sql : jsstring) (_params : option (list bindValue))
    : backend * list row :=
  let b := if negb (initialized b) then initialize b else b in
  (mkBackend (initialized b) (console b ++ [js "Executing SQL: " ++ sql]), []).

(** [SpatialQueryResult] (types.ts). *)
Record SpatialQueryResult := mkResult {
  queryId : jsstring;
  sql : jsstring;
  executionTime : Z;
  rowCount : nat;
  data : list row;
  columns : list unit
}.

(** [executeSpatialQuery(query)]; [now0], [now1], [now2] are the three
    readings of [Date.now()], in the order they are taken.  [None] is the
    [RangeError] that [generateSQL] lets through. *)
Definition executeSpatialQuery (b : backend) (now0 now1 now2 : Z) (query : SpatialQuery)
    : backend * option SpatialQueryResult :=
  let b := if negb (initialized b) then initialize b else b in
  let startTime := now0 in
  match generateSQL query with
  | RangeError => (b, None)
  | Statement sql =>
      let (b', rows) := executeSQL b sql None in
      (b', Some (mkResult (js "query-" ++ decimal now1) sql (now2 - startTime)
                          (length rows) rows []))
  end.

(** [checkGeoFence(fenceId, point)]: [rows[0]?.within ?? false]. *)
Definition checkGeoFence (b : backend) (fenceId : jsstring) (longitude latitude : number)
    : backend * bool :=
  let (text, params) := checkGeoFenceCall fenceId longitude latitude in
  let (b', rows) := executeSQL b text (Some params) in
  (b', match rows with
       | r :: _ => match within r with Some w => w | None => false end
       | [] => false
       end).

End PostGISBackend.

(** ** Further vocabulary *)

Module Vocabulary.

Import PostGIS JsNumber.

(** A query with what [generateSQL] does not tell apart made the same:
    the type, an empty array of fields or orderings, a limit that is
    falsy. *)
Definition normalize (query : SpatialQuery) : SpatialQuery :=
  mkQuery point (timeRange query) (geometry query)
          (match select query with Some [] => None | other => other end)
          (match orderBy query with Some [] => None | other => other end)
          (match limit query with
           | Some n => if truthy n then Some n else None
           | None => None
           end).

(** One entry of a whitelist has an upper-case letter. *)
Definition hasUpper (entry : jsstring) : Prop :=
  exists c, In c entry /\ is_upper c = true.

(** A state of the matcher, with every code unit in lower case. *)
Definition lowerState (st : Regex.mstate) : Regex.mstate :=
  Regex.mkState (option_map lower (Regex.prev st)) (map lower (Regex.rest st))
                (option_map (map lower) (Regex.opened st))
                (option_map (map lower) (Regex.group1 st)).

(** A continuation that does to a lower-case state what it does to the
    state, in lower case. *)
Definition caseBlind (k : Regex.cont) : Prop :=
  forall st, k (lowerState st) = option_map lowerState (k st).

(** [l] begins with [l0]. *)
Definition prefixOf (A : Type) (l0 l : list A) : Prop := exists more, l = l0 ++ more.

End Vocabulary.

(* ===================================================================== *)
(** * Part II.  Theorems                                                  *)
(* ===================================================================== *)

(** ** Strings *)

Lemma str_eqb_eq (a b : jsstring) : str_eqb a b = true <-> a = b.
Proof.
  revert b; induction a as [|x a IH]; intros [|y b]; simpl; split; intro H;
    try reflexivity; try discriminate.
  - apply andb_true_iff in H as [Hx Hab].
    apply N.eqb_eq in Hx. apply IH in Hab. now subst.
  - injection H as -> ->. apply andb_true_iff; split.
    + apply N.eqb_refl.
    + now apply IH.
Qed.

Lemma includes_In (l : list jsstring) (x : jsstring) : includes l x = true <-> In x l.
Proof.
  unfold includes. rewrite existsb_exists. split.
  - intros (y & Hy & E). apply str_eqb_eq in E. now subst.
  - intro H. exists x. split; [assumption | now apply str_eqb_eq].
Qed.

Lemma includes_not_In (l : list jsstring) (x : jsstring) :
  includes l x = false <-> ~ In x l.
Proof.
  rewrite <- includes_In. destruct (includes l x); split; intro H;
    try reflexivity; try discriminate; try (intro; discriminate).
  exfalso. now apply H.
Qed.

(** ** The models of the language's own functions, on samples *)

Module JsFacts.

Import JsNumber PostGIS.

Example toString_samples :
  map toString [ofZ 5000; Decimal 1164 (-1); Decimal (-25) (-1); Decimal 5 (-6);
                Decimal 5 (-7); Decimal 123 (-10); Decimal 1 20; Decimal 1 21;
                Decimal 0 3; NaN; Infinity true]
  = map js ["5000"; "116.4"; "-2.5"; "0.000005"; "5e-7"; "1.23e-8";
            "100000000000000000000"; "1e+21"; "0"; "NaN"; "-Infinity"]%string.
Proof. vm_compute. reflexivity. Qed.

Example toISOString_samples :
  map toISOString [ValidDate 0; ValidDate (-1); ValidDate 951782400000;
                   ValidDate 1709210096789; ValidDate (-62198755200000);
                   ValidDate 253402300800000; InvalidDate]
  = [Some (js "1970-01-01T00:00:00.000Z"); Some (js "1969-12-31T23:59:59.999Z");
     Some (js "2000-02-29T00:00:00.000Z"); Some (js "2024-02-29T12:34:56.789Z");
     Some (js "-000001-01-01T00:00:00.000Z"); Some (js "+010000-01-01T00:00:00.000Z");
     None].
Proof. vm_compute. reflexivity. Qed.

Example JSON_stringify_sample :
  JSON_stringify (mkGeometry (js "Polygon")
                    (Coords3 [[[Decimal 1164 (-1); ofZ 39]; [ofZ 117; Decimal 395 (-1)];
                               [NaN; ofZ 0]]]))
  = js "{" ++ quoteJSON (js "type") ++ js ":" ++ quoteJSON (js "Polygon") ++ js ","
    ++ quoteJSON (js "coordinates") ++ js ":[[[116.4,39],[117,39.5],[null,0]]]}".
Proof. vm_compute. reflexivity. Qed.

Example quoteJSON_sample :
  quoteJSON ([97; 34; 92; 10; 1; 55357; 56832; 55357; 98]%N)
  = [dquote] ++ js "a\" ++ [dquote] ++ js "\\\n\u0001" ++ [55357; 56832]%N
    ++ js "\ud83db" ++ [dquote].
Proof. vm_compute. reflexivity. Qed.

End JsFacts.

(** ** Device commands *)

Module DeviceControlFacts.

Import DeviceControl.

(** Validation looks at the action and at the allow-list, and at nothing
    else: a valid action that the allow-list (if any) holds is accepted. *)
Lemma validateDeviceCommand_accepts (action : jsstring) (allowed : option (list jsstring)) :
  In action validActions ->
  match allowed with Some l => In action l | None => True end ->
  validateDeviceCommand action allowed = mkValidation true None.
Proof.
  intros Hv Ha. unfold validateDeviceCommand.
  apply includes_In in Hv. rewrite Hv. simpl.
  destruct allowed as [l|]; [|reflexivity].
  apply includes_In in Ha. now rewrite Ha.
Qed.

(** Every action of the default confirmation set is accepted when no
    allow-list is given; no confirmation is asked for. *)
Lemma confirm_actions_accepted (action : jsstring) :
  In action DEFAULT_CONFIRM_ACTIONS ->
  validateDeviceCommand action None = mkValidation true None.
Proof.
  intro H. apply validateDeviceCommand_accepts; [|exact I].
  unfold DEFAULT_CONFIRM_ACTIONS in H. unfold validActions.
  simpl in H. simpl. intuition.
Qed.

(** The factory returns the same placeholder whatever confirmation set it
    is given. *)
Lemma middleware_ignores_requireConfirmation (C : Type) (api : C)
    (allowed : option (list jsstring)) (confirm1 confirm2 : option (list jsstring)) :
  createDeviceControlMiddleware (mkOptions api allowed confirm1)
  = createDeviceControlMiddleware (mkOptions api allowed confirm2).
Proof. reflexivity. Qed.

(** C1, at the failing input: [takeoff] is in the default confirmation
    set, and [validateDeviceCommand("takeoff")], called as it has to be
    without any confirmation flag, answers [{ valid: true }] where the
    claim requires the submission to fail. *)
Theorem C1_takeoff_accepted_without_confirmation :
  In (js "takeoff") DEFAULT_CONFIRM_ACTIONS /\
  validateDeviceCommand (js "takeoff") None = mkValidation true None.
Proof. split; [simpl; auto | reflexivity]. Qed.

End DeviceControlFacts.

(** ** The retrying request *)

Module DeviceBackendFacts.

Import DeviceBackend.

Section Fetch.

Variable config : DeviceConfig.
Variable network : Z -> outcome.

#[local] Abbreviation r := (configRetry config).
#[local] Abbreviation T := (configTimeout config).
#[local] Abbreviation n := (Z.to_nat (maxAttempts r)).
#[local] Abbreviation failed := (failedAttempt config).

Lemma before_last (j : nat) : (j < n)%nat -> (Z.of_nat j <? maxAttempts r)%Z = true.
Proof. intro H. apply Z.ltb_lt. lia. Qed.

Lemma at_last : (1 <= n)%nat -> (Z.of_nat n <? maxAttempts r)%Z = false.
Proof. intro H. apply Z.ltb_ge. lia. Qed.

(** Under a timeout the signal accepts, the [try] block issues its
    request; under one it refuses, the [catch] gets the signal's error. *)
Lemma attempted_accepts (a : Z) :
  signalAccepts T = true -> attempted config network a = ([Request a T], network a).
Proof. unfold attempted. now intros ->. Qed.

Lemma attempted_refuses (a : Z) :
  signalAccepts T = false
  -> attempted config network a = ([], RejectsError (SignalError T)).
Proof. unfold attempted. now intros ->. Qed.

(** The loop never issues more requests than it has attempt numbers. *)
Lemma attemptLoop_requests (attempts : list Z) (lastError : option Error) :
  (requests (fst (attemptLoop config network attempts lastError)) <= length attempts)%nat.
Proof.
  revert lastError. induction attempts as [|a l IH]; intro e; cbn [attemptLoop].
  - apply Nat.le_refl.
  - assert (Htried : (requests (fst (attempted config network a)) <= 1)%nat)
      by (unfold attempted; destruct (signalAccepts T); cbn; lia).
    destruct (attempted config network a) as [tried o]. cbn [fst] in Htried.
    destruct (accepted o) as [resp|].
    + cbn [fst length]. lia.
    + specialize (IH (Some (errorOf o))).
      destruct (attemptLoop config network l (Some (errorOf o))) as [evs c].
      cbn [fst length] in *. unfold requests in *.
      rewrite !filter_app, !length_app.
      destruct (a <? maxAttempts (configRetry config))%Z; cbn; lia.
Qed.

(** The loop stops at the first accepted attempt [k], having waited after
    each attempt before it. *)
Lemma attemptLoop_accepts (m : nat) : forall (a k : nat) (e : option Error) (resp : Response),
  signalAccepts T = true ->
  (a <= k < a + m)%nat -> (k <= n)%nat ->
  accepted (network (Z.of_nat k)) = Some resp ->
  (forall j, (a <= j < k)%nat -> accepted (network (Z.of_nat j)) = None) ->
  attemptLoop config network (map Z.of_nat (seq a m)) e
  = (flat_map failed (seq a (k - a)) ++ [Request (Z.of_nat k) T], Returns resp).
Proof.
  induction m as [|m IH]; intros a k e resp HT Hk Hn Hok Hfail; [lia|].
  cbn [seq map attemptLoop]. rewrite attempted_accepts by assumption.
  destruct (Nat.eq_dec a k) as [->|Hne].
  - rewrite Hok. now rewrite Nat.sub_diag.
  - rewrite (Hfail a) by lia.
    rewrite (IH (S a) k _ resp) by (try assumption; try lia; intros; apply Hfail; lia).
    rewrite before_last by lia.
    replace (k - a)%nat with (S (k - S a)) by lia. reflexivity.
Qed.

(** When no attempt is accepted the loop runs through all of them, the
    last one without a delay after it, and throws the last error. *)
Lemma attemptLoop_exhausts (m : nat) : forall (a : nat) (e : option Error),
  signalAccepts T = true ->
  (1 <= a)%nat -> (a + m = n)%nat ->
  (forall j, (a <= j <= n)%nat -> accepted (network (Z.of_nat j)) = None) ->
  attemptLoop config network (map Z.of_nat (seq a (S m))) e
  = (flat_map failed (seq a m) ++ [Request (Z.of_nat n) T],
     Throws (Some (errorOf (network (Z.of_nat n))))).
Proof.
  induction m as [|m IH]; intros a e HT Ha Hm Hfail.
  - assert (a = n) by lia. subst a. cbn [seq map attemptLoop].
    rewrite attempted_accepts by assumption.
    rewrite (Hfail n) by lia. rewrite at_last by lia. reflexivity.
  - change (seq a (S (S m))) with (a :: seq (S a) (S m)).
    cbn [map attemptLoop]. rewrite attempted_accepts by assumption.
    rewrite (Hfail a) by lia.
    rewrite (IH (S a)) by (try assumption; try lia; intros; apply Hfail; lia).
    rewrite before_last by lia. reflexivity.
Qed.

(** Under a timeout the signal refuses, every iteration fails before it
    requests anything: the loop waits between its iterations and throws
    the signal's error. *)
Lemma attemptLoop_refused (m : nat) : forall (a : nat) (e : option Error),
  signalAccepts T = false ->
  (1 <= a)%nat -> (a + m = n)%nat ->
  attemptLoop config network (map Z.of_nat (seq a (S m))) e
  = (map (fun a => Wait (waitTime r (Z.of_nat a))) (seq a m),
     Throws (Some (SignalError T))).
Proof.
  induction m as [|m IH]; intros a e HT Ha Hm.
  - assert (a = n) by lia. subst a. cbn [seq map attemptLoop].
    rewrite attempted_refuses by assumption. cbn [accepted errorOf].
    rewrite at_last by lia. reflexivity.
  - change (seq a (S (S m))) with (a :: seq (S a) (S m)).
    cbn [map attemptLoop]. rewrite attempted_refuses by assumption.
    cbn [accepted errorOf]. rewrite (IH (S a)) by (try assumption; lia).
    rewrite before_last by lia. reflexivity.
Qed.

End Fetch.

(** C8.  One logical request makes at most [maxAttempts] physical
    attempts, each under a timeout signal of its own.  Under a timeout
    that [AbortSignal.timeout] accepts: if attempt [k] is the first to be
    answered with a success status, the executor returns that response at
    once, having waited [min (minWait * 2^(j-1)) maxWait] after each
    earlier attempt [j]; if none of the [maxAttempts] attempts is, it has
    waited so between them and throws the error of the last one.  Under a
    timeout that is refused, every attempt fails on its signal before
    anything is requested: the executor waits in the same way between
    them and throws the error of the last one, the signal's. *)
Theorem C8_fetch_retries (config : DeviceConfig) (network : Z -> outcome) :
  (requests (fst (fetch config network))
     <= Z.to_nat (maxAttempts (configRetry config)))%nat
  /\ (signalAccepts (configTimeout config) = true ->
      (forall (k : nat) (resp : Response),
         (1 <= k <= Z.to_nat (maxAttempts (configRetry config)))%nat ->
         accepted (network (Z.of_nat k)) = Some resp ->
         (forall j, (1 <= j < k)%nat -> accepted (network (Z.of_nat j)) = None) ->
         fetch config network = (schedule config k, Returns resp))
      /\ ((1 <= Z.to_nat (maxAttempts (configRetry config)))%nat ->
          (forall j, (1 <= j <= Z.to_nat (maxAttempts (configRetry config)))%nat ->
                     accepted (network (Z.of_nat j)) = None) ->
          fetch config network
          = (schedule config (Z.to_nat (maxAttempts (configRetry config))),
             Throws (Some (errorOf (network (maxAttempts (configRetry config))))))))
  /\ (signalAccepts (configTimeout config) = false ->
      (1 <= Z.to_nat (maxAttempts (configRetry config)))%nat ->
      fetch config network
      = (delays config (Z.to_nat (maxAttempts (configRetry config))),
         Throws (Some (SignalError (configTimeout config))))).
Proof.
  unfold fetch, attemptNumbers. split; [|split; [intro HT; split|]].
  - etransitivity; [apply attemptLoop_requests|].
    rewrite length_map, length_seq. apply Nat.le_refl.
  - intros k resp Hk Hok Hfail. unfold schedule.
    erewrite attemptLoop_accepts; eauto; try lia.
  - intros Hn Hfail. unfold schedule.
    remember (Z.to_nat (maxAttempts (configRetry config))) as n eqn:En.
    destruct n as [|m]; [lia|].
    rewrite (@attemptLoop_exhausts config network m 1 None); rewrite <- ?En; try lia;
      try assumption.
    replace (Z.of_nat (S m)) with (maxAttempts (configRetry config)) by lia.
    now replace (S m - 1)%nat with m by lia.
  - intros HT Hn. unfold delays.
    remember (Z.to_nat (maxAttempts (configRetry config))) as n eqn:En.
    destruct n as [|m]; [lia|].
    rewrite (@attemptLoop_refused config network m 1 None); rewrite <- ?En; try lia;
      try assumption.
    now replace (S m - 1)%nat with m by lia.
Qed.

(** The sample API [flaky] is accepted at the third attempt; an API that
    is down exhausts the three attempts of the default configuration; and
    under the timeout -1 an API that would answer 200 is never asked. *)
Lemma C8_fetch_retries_witness :
  fetch plainConfig flaky
  = ([Request 1 30000; Wait 1000; Request 2 30000; Wait 2000; Request 3 30000],
     Returns (mkResponse 200 (js "OK") (js "{}")))
  /\ fetch plainConfig (fun _ => RejectsOther (js "down"))
     = ([Request 1 30000; Wait 1000; Request 2 30000; Wait 2000; Request 3 30000],
        Throws (Some (mkError (js "down"))))
  /\ fetch refusedTimeout (fun _ => Resolves (mkResponse 200 (js "OK") (js "{}")))
     = ([Wait 1000; Wait 2000], Throws (Some (SignalError (-1)))).
Proof.
  destruct (C8_fetch_retries plainConfig flaky) as (_ & Hok & _).
  destruct (C8_fetch_retries plainConfig (fun _ => RejectsOther (js "down")))
    as (_ & Hfail & _).
  destruct (C8_fetch_retries refusedTimeout
              (fun _ => Resolves (mkResponse 200 (js "OK") (js "{}"))))
    as (_ & _ & Hrefused).
  split; [|split].
  - apply (proj1 (Hok eq_refl) 3%nat (mkResponse 200 (js "OK") (js "{}"))).
    + simpl. lia.
    + reflexivity.
    + intros j Hj. assert (j = 1 \/ j = 2)%nat as [-> | ->] by lia; reflexivity.
  - apply (proj2 (Hfail eq_refl)).
    + simpl. lia.
    + intros j _. reflexivity.
  - apply Hrefused.
    + reflexivity.
    + simpl. lia.
Defined.

End DeviceBackendFacts.

(** ** Stop detection *)

Module TrajectoryFacts.

Import Trajectory.

Section Loop.

Variable points : list TrajectoryPoint.
Variables sT dT : Q.

#[local] Abbreviation stoppedAt := (stoppedAt points sT).
#[local] Abbreviation movingAt := (movingAt points sT).
#[local] Abbreviation runFrom := (runFrom points sT).
#[local] Abbreviation closedRun := (closedRun points sT).
#[local] Abbreviation spanAtLeast := (spanAtLeast points dT).
#[local] Abbreviation body := (loopBody points sT dT).
#[local] Abbreviation invariant := (invariant points sT dT).

Lemma stopped_not_moving (j : nat) : stoppedAt j -> movingAt j -> False.
Proof. intros (p & Hp & H1) (q & Hq & H2). congruence. Qed.

Lemma movingAt_lt (j : nat) : movingAt j -> j < length points.
Proof. intros (p & Hp & _). apply nth_error_Some. congruence. Qed.

Lemma loopUpTo_S (n : nat) :
  loopUpTo points sT dT (S n) = body (loopUpTo points sT dT n) n.
Proof. unfold loopUpTo. now rewrite seq_S, fold_left_app. Qed.

Lemma invariant_0 : invariant 0 (mkLoop None []).
Proof.
  split; simpl.
  - intros j Hj. discriminate.
  - intro i. split; [intros [] | intros (e & He & _); lia].
Qed.

Lemma invariant_step (n : nat) (st : loopState) :
  n < length points -> invariant n st -> invariant (S n) (body st n).
Proof.
  intros Hn [I1 I2].
  destruct (nth_error points n) as [p|] eqn:Hp;
    [|apply nth_error_None in Hp; lia].
  unfold loopBody. rewrite Hp.
  change (match speed p with Some v => v | None => 0%Q end) with (speedOf p).
  destruct (Qle_bool (speedOf p) sT) eqn:Hs.
  - (* the point at [n] is stopped *)
    assert (Hstop : stoppedAt n) by (exists p; auto).
    assert (I2' : forall i, In i (stopPoints st)
              <-> exists e, S e < S n /\ closedRun i e /\ spanAtLeast i e).
    { intro i. rewrite I2. split; intros (e & He & Hc & Hsp).
      - exists e. split; [lia | auto].
      - exists e. split; [|auto].
        destruct (Nat.eq_dec (S e) n) as [E|]; [|lia].
        exfalso. destruct Hc as [_ Hm]. rewrite E in Hm.
        exact (stopped_not_moving Hstop Hm). }
    destruct (stopStart st) as [s|] eqn:Hst; (split; [|exact I2']); simpl.
    + rewrite Hst. destruct I1 as (Hlt & Hall & Hleft). repeat split; auto.
      intros j Hj. destruct (Nat.eq_dec j n) as [->|]; [assumption|].
      apply Hall. lia.
    + repeat split; auto.
      intros j Hj. assert (j = n) as -> by lia. assumption.
  - (* the point at [n] is moving *)
    assert (Hmov : movingAt n) by (exists p; auto).
    destruct (stopStart st) as [s|] eqn:Hst.
    + destruct I1 as (Hlt & Hall & Hleft).
      destruct n as [|m]; [lia|]. simpl before.
      destruct (Hall s) as (sp & Hsp & _); [lia|].
      destruct (Hall m) as (ep & Hep & _); [lia|].
      rewrite Hsp, Hep.
      assert (Hrun : closedRun s m).
      { split; [|assumption]. repeat split; auto; try lia.
        intros j Hj. apply Hall. lia. }
      assert (Huniq : forall i e, S e = S m -> closedRun i e -> i = s).
      { intros i e He [(Hle & Hi & Hil) _]. injection He as ->.
        destruct (Nat.lt_trichotomy i s) as [Hlt'|[->|Hgt]]; [|reflexivity|]; exfalso.
        - destruct s as [|s']; [lia|].
          apply (@stopped_not_moving s'); [apply Hi; lia | now apply Hleft].
        - destruct i as [|i']; [lia|].
          apply (@stopped_not_moving i'); [apply Hall; lia | now apply Hil]. }
      split; simpl.
      * intros j Hj. injection Hj as ->. assumption.
      * intro i. destruct (num_ge (duration sp ep) dT) eqn:Hd.
        -- rewrite in_app_iff, I2. simpl. split.
           ++ intros [(e & He & Hc)|[<-|[]]].
              ** exists e. split; [lia | auto].
              ** exists m. split; [lia|]. split; [assumption|].
                 exists sp, ep. auto.
           ++ intros (e & He & Hc & Hspan).
              destruct (Nat.eq_dec (S e) (S m)) as [E|].
              ** right. left. symmetry. eapply Huniq; eauto.
              ** left. exists e. split; [lia | auto].
        -- rewrite I2. split; intros (e & He & Hc & Hspan).
           ++ exists e. split; [lia | auto].
           ++ exists e. split; [|auto].
              destruct (Nat.eq_dec (S e) (S m)) as [E|]; [|lia]. exfalso.
              assert (i = s) by (eapply Huniq; eauto). subst i.
              injection E as ->.
              destruct Hspan as (sp' & ep' & Hsp' & Hep' & Hge). congruence.
    + split; simpl.
      * rewrite Hst. intros j Hj. injection Hj as ->. assumption.
      * intro i. rewrite I2. split; intros (e & He & Hc & Hspan).
        -- exists e. split; [lia | auto].
        -- exists e. split; [|auto].
           destruct (Nat.eq_dec (S e) n) as [E|]; [|lia]. exfalso.
           destruct Hc as [(Hle & Hi & _) _].
           apply (@stopped_not_moving e); [apply Hi; lia | now apply I1].
Qed.

Lemma invariant_loopUpTo (n : nat) :
  n <= length points -> invariant n (loopUpTo points sT dT n).
Proof.
  induction n as [|n IH]; intro Hn.
  - apply invariant_0.
  - rewrite loopUpTo_S. apply invariant_step; [lia|]. apply IH. lia.
Qed.

(** The indices reported are exactly the first indices of the closed runs
    whose time span reaches the duration threshold. *)
Lemma detectStopPoints_closed_runs (s : nat) :
  In s (detectStopPoints points (Some sT) (Some dT))
  <-> exists e, closedRun s e /\ spanAtLeast s e.
Proof.
  unfold detectStopPoints.
  destruct (@invariant_loopUpTo (length points) (Nat.le_refl _)) as [_ I2].
  rewrite I2. split.
  - intros (e & _ & H). eauto.
  - intros (e & Hc & Hspan). exists e. split; [|auto].
    destruct Hc as [_ Hm]. now apply movingAt_lt.
Qed.

(** A run that lasts until the input ends is not reported, whatever its
    time span. *)
Lemma trailing_run_not_reported (s e : nat) :
  trailingRun points sT s e -> ~ In s (detectStopPoints points (Some sT) (Some dT)).
Proof.
  intros [(Hle & Hall & _) Hend] Hin.
  apply detectStopPoints_closed_runs in Hin as (e' & [(Hle' & Hall' & _) Hm] & _).
  pose proof (movingAt_lt Hm) as Hlt.
  destruct (Nat.le_gt_cases (S e') e) as [H|H].
  - apply (@stopped_not_moving (S e')); [apply Hall; lia | assumption].
  - lia.
Qed.

End Loop.

(** With the default thresholds, 0.5 m/s and 60 s: a closed run of 60
    seconds is reported, a closed run of 59 seconds is not. *)
Example closed_run_of_60_seconds :
  detectStopPoints [sample 0 0%Q; sample 60 (1 # 2)%Q; sample 61 3%Q] None None = [0%nat].
Proof. reflexivity. Qed.

Example closed_run_of_59_seconds :
  detectStopPoints [sample 0 0%Q; sample 59 (1 # 2)%Q; sample 60 3%Q] None None = [].
Proof. reflexivity. Qed.

(** C9, at the failing input [twoStops]: the maximal runs of stopped
    points are the points 0..1, spanning 60 seconds, and the points 3..4,
    spanning 130 seconds; both spans reach the threshold of 60 seconds, so
    the claim asks for the indices 0 and 3.  The run 3..4 is still open
    when the input ends, and [detectStopPoints] reports index 0 alone. *)
Theorem C9_open_maximal_run_missing :
  maximalRun twoStops defaultSpeedThreshold 0 1
  /\ spanAtLeast twoStops defaultDurationThreshold 0 1
  /\ maximalRun twoStops defaultSpeedThreshold 3 4
  /\ spanAtLeast twoStops defaultDurationThreshold 3 4
  /\ detectStopPoints twoStops None None = [0%nat].
Proof.
  assert (Hs : forall j, (j = 0 \/ j = 1 \/ j = 3 \/ j = 4)%nat ->
                         stoppedAt twoStops defaultSpeedThreshold j).
  { intros j [-> | [-> | [-> | ->]]]; eexists; split; reflexivity. }
  assert (Hm : movingAt twoStops defaultSpeedThreshold 2).
  { eexists; split; reflexivity. }
  repeat split.
  - left. split; [|exact Hm]. repeat split; [lia | | intros j Hj; lia].
    intros j Hj. apply Hs. lia.
  - do 2 eexists. repeat split; reflexivity.
  - right. split; [|reflexivity]. repeat split; [lia | | ].
    + intros j Hj. apply Hs. lia.
    + intros j Hj. assert (j = 2)%nat as -> by lia. exact Hm.
  - do 2 eexists. repeat split; reflexivity.
Qed.

(** C10, at the failing input [parked]: both points are stopped, the run
    0..1 lasts until the input ends and spans 120 seconds, twice the
    threshold, so the claim asks for index 0; [detectStopPoints] leaves the
    run unevaluated and reports nothing. *)
Theorem C10_trailing_run_dropped :
  trailingRun parked defaultSpeedThreshold 0 1
  /\ spanAtLeast parked defaultDurationThreshold 0 1
  /\ detectStopPoints parked None None = [].
Proof.
  repeat split.
  - lia.
  - intros j Hj. assert (j = 0 \/ j = 1)%nat as [-> | ->] by lia;
      eexists; split; reflexivity.
  - intros j Hj. lia.
  - do 2 eexists. repeat split; reflexivity.
Qed.

End TrajectoryFacts.

(** ** Regular expressions *)

Module RegexFacts.

Import Regex.

Lemma lastOr_app (p : option char16) (a b : jsstring) :
  lastOr p (a ++ b) = lastOr (lastOr p a) b.
Proof. apply fold_left_app. Qed.

Lemma lastOr_nonempty (p q : option char16) (w : jsstring) :
  w <> [] -> lastOr p w = lastOr q w.
Proof. destruct w as [|c w]; [congruence | reflexivity]. Qed.

Lemma state_eta (st : mstate) :
  mkState (prev st) (rest st) (opened st) (group1 st) = st.
Proof. now destruct st. Qed.

Section Star.

Variables (i : bool) (cc : cclass) (k : cont).

(** What a successful repetition has read: some characters of the class,
    after which the continuation succeeded. *)
Lemma star_sound (s : jsstring) : forall p o g r,
  star i cc k p s o g = Some r ->
  exists u v, s = u ++ v /\ allOf i cc u /\ k (mkState (lastOr p u) v o g) = Some r.
Proof.
  induction s as [|c s IH]; intros p o g r H; simpl in H.
  - exists [], []. repeat split; [constructor | assumption].
  - destruct (cc_matches i cc c) eqn:Hc.
    + destruct (star i cc k (Some c) s o g) as [r'|] eqn:Hs.
      * injection H as <-. apply IH in Hs as (u & v & -> & Hu & Hk).
        exists (c :: u), v. repeat split; [constructor; assumption | assumption].
      * exists [], (c :: s). repeat split; [constructor | assumption].
    + exists [], (c :: s). repeat split; [constructor | assumption].
Qed.

(** The repetition succeeds whenever the continuation succeeds after some
    characters of the class. *)
Lemma star_complete (u : jsstring) : forall p v o g r,
  allOf i cc u -> k (mkState (lastOr p u) v o g) = Some r ->
  exists r', star i cc k p (u ++ v) o g = Some r'.
Proof.
  induction u as [|c u IH]; intros p v o g r Hu Hk.
  - simpl in *. destruct v as [|c v]; simpl; [eauto|].
    destruct (cc_matches i cc c); [|eauto].
    destruct (star i cc k (Some c) v o g); eauto.
  - inversion Hu as [|? ? Hc Hu']; subst. simpl. rewrite Hc.
    destruct (IH (Some c) v o g r Hu' Hk) as (r' & ->). eauto.
Qed.

(** When the continuation fails on every input that begins with a
    character of the class, nothing is given back: the repetition reads
    the whole run. *)
Lemma star_exact (u : jsstring) : forall p v o g,
  (forall p' c s' o' g', cc_matches i cc c = true ->
                         k (mkState p' (c :: s') o' g') = None) ->
  allOf i cc u ->
  match v with c :: _ => cc_matches i cc c = false | [] => True end ->
  star i cc k p (u ++ v) o g = k (mkState (lastOr p u) v o g).
Proof.
  induction u as [|c u IH]; intros p v o g Hfail Hu Hv.
  - simpl. destruct v as [|c v]; simpl; [reflexivity | now rewrite Hv].
  - inversion Hu as [|? ? Hc Hu']; subst. simpl. rewrite Hc.
    rewrite IH by assumption.
    destruct (k (mkState (lastOr (Some c) u) v o g)); [reflexivity|].
    now apply Hfail.
Qed.

(** When the continuation never fails, the repetition reads the whole run
    as well. *)
Lemma star_greedy (u : jsstring) : forall p v o g,
  (forall st, k st <> None) ->
  allOf i cc u ->
  match v with c :: _ => cc_matches i cc c = false | [] => True end ->
  star i cc k p (u ++ v) o g = k (mkState (lastOr p u) v o g).
Proof.
  induction u as [|c u IH]; intros p v o g Htot Hu Hv.
  - simpl. destruct v as [|c v]; simpl; [reflexivity | now rewrite Hv].
  - inversion Hu as [|? ? Hc Hu']; subst. simpl. rewrite Hc.
    rewrite IH by assumption.
    destruct (k (mkState (lastOr (Some c) u) v o g)) eqn:E; [reflexivity|].
    now apply Htot in E.
Qed.

Lemma star_total (s : jsstring) : forall p o g,
  (forall st, k st <> None) -> star i cc k p s o g <> None.
Proof.
  induction s as [|c s IH]; intros p o g Htot; simpl; [apply Htot|].
  destruct (cc_matches i cc c); [|apply Htot].
  specialize (IH (Some c) o g Htot).
  destruct (star i cc k (Some c) s o g); congruence.
Qed.

(** The run read by a repetition whose continuation never fails is
    maximal. *)
Lemma star_sound_greedy (s : jsstring) : forall p o g r,
  (forall st, k st <> None) ->
  star i cc k p s o g = Some r ->
  exists u v, s = u ++ v /\ allOf i cc u
              /\ match v with c :: _ => cc_matches i cc c = false | [] => True end
              /\ k (mkState (lastOr p u) v o g) = Some r.
Proof.
  induction s as [|c s IH]; intros p o g r Htot H; simpl in H.
  - exists [], []. repeat split; [constructor | assumption].
  - destruct (cc_matches i cc c) eqn:Hc.
    + destruct (star i cc k (Some c) s o g) as [r'|] eqn:Hs.
      * injection H as <-. apply IH in Hs as (u & v & -> & Hu & Hv & Hk); [|assumption].
        exists (c :: u), v.
        repeat split; [constructor; assumption | assumption | assumption].
      * exfalso. now apply (@star_total s (Some c) o g).
    + exists [], (c :: s). repeat split; [constructor | assumption | assumption].
Qed.

End Star.

Lemma exists_Some_iff (A : Type) (x : option A) : (exists r, x = Some r) <-> x <> None.
Proof.
  destruct x; split; intro H; try congruence; eauto. now destruct H.
Qed.

(** The matcher and the language agree: a sequence of consuming terms,
    followed by a continuation, succeeds exactly when the input begins
    with a string of the language after which the continuation succeeds. *)
Lemma run_Lang (i : bool) (ns : list node) : Forall consuming ns -> forall k st,
  (exists r, run i ns k st = Some r)
  <-> exists w v, rest st = w ++ v /\ Lang i ns w
                  /\ exists r, k (mkState (lastOr (prev st) w) v (opened st) (group1 st)) = Some r.
Proof.
  induction ns as [|n ns IH]; intros Hns k st.
  - simpl. split.
    + intros (r & H). exists [], (rest st). simpl. rewrite state_eta. eauto.
    + intros (w & v & E & -> & r & H). simpl in *. rewrite <- E, state_eta in H. eauto.
  - inversion Hns as [|? ? Hn Hns']; subst.
    destruct n as [cc|cc|cc| | |]; try contradiction; simpl.
    + (* one character *)
      unfold one. split.
      * intros (r & H). destruct (rest st) as [|c s'] eqn:E; [discriminate|].
        destruct (cc_matches i cc c) eqn:Hc; [|discriminate].
        assert (X : exists r, run i ns k (mkState (Some c) s' (opened st) (group1 st)) = Some r)
          by eauto.
        apply (IH Hns') in X as (w & v & E' & HL & Hk). simpl in *. subst s'.
        exists (c :: w), v. split; [reflexivity|]. split; [|exact Hk].
        exists c, w. auto.
      * intros (w & v & E & (c & w' & -> & Hc & HL) & Hk).
        rewrite E. simpl. rewrite Hc. apply (IH Hns'). simpl.
        exists w', v. auto.
    + (* star *)
      unfold starK. split.
      * intros (r & H). apply star_sound in H as (u & v & E & Hu & H).
        assert (X : exists r, run i ns k (mkState (lastOr (prev st) u) v (opened st) (group1 st)) = Some r)
          by eauto.
        apply (IH Hns') in X as (w & v' & E' & HL & Hk). simpl in *. subst v.
        exists (u ++ w), v'. rewrite E, app_assoc, lastOr_app.
        split; [reflexivity|]. split; [|exact Hk]. exists u, w. auto.
      * intros (w & v & E & (u & w' & -> & Hu & HL) & Hk).
        rewrite E, <- app_assoc.
        assert (X : exists r, run i ns k (mkState (lastOr (prev st) u) (w' ++ v) (opened st) (group1 st)) = Some r).
        { apply (IH Hns'). simpl. exists w', v. rewrite <- lastOr_app. auto. }
        destruct X as (r & X). eapply star_complete; eauto.
    + (* plus *)
      unfold one, starK. split.
      * intros (r & H). destruct (rest st) as [|c s'] eqn:E; [discriminate|].
        destruct (cc_matches i cc c) eqn:Hc; [|discriminate]. simpl in H.
        apply star_sound in H as (u & v & E' & Hu & H).
        assert (X : exists r, run i ns k (mkState (lastOr (Some c) u) v (opened st) (group1 st)) = Some r)
          by eauto.
        apply (IH Hns') in X as (w & v' & E'' & HL & Hk). simpl in *. subst v s'.
        exists (c :: u ++ w), v'. simpl. rewrite app_assoc, lastOr_app.
        split; [reflexivity|]. split; [|exact Hk]. exists c, u, w. auto.
      * intros (w & v & E & (c & u & w' & -> & Hc & Hu & HL) & Hk).
        rewrite E. simpl. rewrite Hc. simpl. rewrite <- app_assoc.
        assert (X : exists r, run i ns k (mkState (lastOr (Some c) u) (w' ++ v) (opened st) (group1 st)) = Some r).
        { apply (IH Hns'). simpl. exists w', v.
          simpl in Hk. rewrite lastOr_app in Hk. auto. }
        destruct X as (r & X). eapply star_complete; eauto.
Qed.

Section Search.

Variable re : regex.
Hypothesis re_consuming : Forall consuming (nodes re).

Lemma match_at_Lang (p : option char16) (s : jsstring) :
  (exists m, match_at re p s = Some m)
  <-> exists w v, s = w ++ v /\ Lang (ignoreCase re) (nodes re) w.
Proof.
  unfold match_at. rewrite (@run_Lang (ignoreCase re) _ re_consuming). simpl. split.
  - intros (w & v & E & HL & _). eauto.
  - intros (w & v & E & HL). exists w, v. eauto.
Qed.

Lemma search_Occurs (s : jsstring) : forall p,
  (exists m, search re p s = Some m) <-> Occurs re s.
Proof.
  unfold Occurs. induction s as [|c s IH]; intro p; simpl.
  - destruct (match_at re p []) as [m|] eqn:Hm.
    + split; [intros _ | eauto].
      destruct (proj1 (match_at_Lang p [])) as (w & v & E & HL); [eauto|].
      exists [], w, v. auto.
    + split; [intros (m & H); discriminate|].
      intros (pre & w & post & E & HL). exfalso.
      destruct pre; [|discriminate]. simpl in E.
      destruct (proj2 (match_at_Lang p [])) as (m & H); [eauto | congruence].
  - destruct (match_at re p (c :: s)) as [m|] eqn:Hm.
    + split; [intros _ | eauto].
      destruct (proj1 (match_at_Lang p (c :: s))) as (w & v & E & HL); [eauto|].
      exists [], w, v. auto.
    + rewrite IH. split.
      * intros (pre & w & post & -> & HL). exists (c :: pre), w, post. auto.
      * intros (pre & w & post & E & HL). destruct pre as [|c' pre].
        -- exfalso. simpl in E.
           destruct (proj2 (match_at_Lang p (c :: s))) as (m & H); [eauto | congruence].
        -- injection E as -> ->. eauto.
Qed.

(** [test] answers whether the expression occurs in the string. *)
Lemma test_Occurs (s : jsstring) : test re s = true <-> Occurs re s.
Proof.
  unfold test. rewrite <- (search_Occurs s None).
  destruct (search re None s); split; intro H; try reflexivity; try discriminate; eauto.
  now destruct H.
Qed.

End Search.

(** *** Character classes *)

Ltac to_arith :=
  repeat rewrite ?orb_true_iff, ?andb_true_iff, ?orb_false_iff, ?andb_false_iff,
                 ?N.leb_le, ?N.leb_gt, ?N.eqb_eq, ?N.eqb_neq in *.

Ltac classes :=
  unfold is_space, is_word, is_upper, is_lower, is_digit in *; to_arith; lia.

Lemma space_not_word (c : char16) : is_space c = true -> is_word c = false.
Proof.
  intro H. destruct (is_word c) eqn:E; [exfalso | reflexivity]. classes.
Qed.

Lemma word_not_space (c : char16) : is_word c = true -> is_space c = false.
Proof.
  intro H. destruct (is_space c) eqn:E; [exfalso | reflexivity]. classes.
Qed.

Lemma upper_cases (c : char16) :
  (is_lower c = true /\ upper c = (c - 32)%N) \/ (is_lower c = false /\ upper c = c).
Proof. unfold upper. destruct (is_lower c); auto. Qed.

(** Up to case, a letter is matched by its two forms and any other ASCII
    character by itself. *)
Lemma canonicalize_letter (c p : char16) :
  is_lower p = true ->
  canonicalize c = canonicalize p <-> c = p \/ c = (p - 32)%N.
Proof.
  intro H. unfold canonicalize.
  destruct (upper_cases c) as [[Hc ->] | [Hc ->]];
    destruct (upper_cases p) as [[Hp ->] | [Hp ->]]; try congruence;
    clear H; classes.
Qed.

Lemma canonicalize_other (c p : char16) :
  is_lower p = false -> is_upper p = false ->
  canonicalize c = canonicalize p <-> c = p.
Proof.
  intros H1 H2. unfold canonicalize.
  destruct (upper_cases c) as [[Hc ->] | [Hc ->]];
    destruct (upper_cases p) as [[Hp ->] | [Hp ->]]; try congruence;
    clear H1; classes.
Qed.

Lemma letter_is_word (c p : char16) :
  is_lower p = true -> canonicalize c = canonicalize p ->
  is_word c = true /\ lower c = p.
Proof.
  intros H E. apply canonicalize_letter in E; [|assumption].
  unfold lower. destruct (is_upper c) eqn:Hu; split; classes.
Qed.

Lemma Chr_matches (c p : char16) :
  cc_matches true (Chr p) c = true <-> canonicalize c = canonicalize p.
Proof. simpl. apply N.eqb_eq. Qed.

(** A word of lower-case letters, read up to case, consists of word
    characters and is that word once put in lower case. *)
Lemma sameLetters_word (a l : jsstring) :
  Forall (fun p => is_lower p = true) l -> sameLetters a l ->
  wordChars a /\ toLowerCase a = l.
Proof.
  unfold sameLetters, wordChars, toLowerCase. intro Hl. revert a.
  induction Hl as [|p l Hp Hl IH]; intros [|c a] E; simpl in E; try discriminate.
  - split; [constructor | reflexivity].
  - injection E as Ec Ea. destruct (IH a Ea) as [Hw Hlow].
    destruct (@letter_is_word c p Hp Ec) as [Hc Hlc].
    split; [constructor; assumption | simpl; congruence].
Qed.

Lemma sameLetters_length (a l : jsstring) : sameLetters a l -> length a = length l.
Proof. intro E. apply (f_equal (@length _)) in E. now rewrite !length_map in E. Qed.

(** *** The language of a plain word *)

Lemma Lang_word (l : jsstring) (ns : list node) : forall w,
  Lang true (map (fun c => One (Chr c)) l ++ ns) w
  <-> exists a b, w = a ++ b /\ sameLetters a l /\ Lang true ns b.
Proof.
  unfold sameLetters. induction l as [|p l IH]; intro w; simpl.
  - split.
    + intro H. exists [], w. auto.
    + intros (a & b & -> & E & H). destruct a; [assumption | discriminate].
  - split.
    + intros (c & w' & -> & Hc & H). apply IH in H as (a & b & -> & E & H).
      exists (c :: a), b. simpl. apply N.eqb_eq in Hc.
      repeat split; [congruence | assumption].
    + intros (a & b & -> & E & H). destruct a as [|c a]; [discriminate|].
      injection E as Ec Ea. exists c, (a ++ b). repeat split.
      * now apply N.eqb_eq.
      * apply IH. eauto.
Qed.

(** *** The language of the other terms, read off one term at a time *)

Lemma Lang_one (p : char16) (ns : list node) (w : jsstring) :
  is_lower p = false -> is_upper p = false ->
  Lang true (One (Chr p) :: ns) w <-> exists v, w = p :: v /\ Lang true ns v.
Proof.
  intros H1 H2. simpl. split.
  - intros (c & v & -> & Hc & H). apply N.eqb_eq in Hc.
    apply (proj1 (@canonicalize_other c p H1 H2)) in Hc. subst c. eauto.
  - intros (v & -> & H). exists p, v. repeat split; [apply N.eqb_refl | assumption].
Qed.

Lemma Lang_star_space (ns : list node) (w : jsstring) :
  Lang true (Star Space :: ns) w
  <-> exists ws v, w = ws ++ v /\ spaces ws /\ Lang true ns v.
Proof. reflexivity. Qed.

Lemma Lang_plus_space (ns : list node) (w : jsstring) :
  Lang true (Plus Space :: ns) w
  <-> exists ws v, w = ws ++ v /\ spaces ws /\ ws <> [] /\ Lang true ns v.
Proof.
  simpl. split.
  - intros (c & u & v & -> & Hc & Hu & H). exists (c :: u), v.
    repeat split; [constructor; assumption | discriminate | assumption].
  - intros (ws & v & -> & Hws & Hne & H). destruct ws as [|c u]; [congruence|].
    inversion Hws; subst. exists c, u, v. auto.
Qed.

Lemma Lang_nil (w : jsstring) : Lang true [] w <-> w = [].
Proof. reflexivity. Qed.

(** *** Single steps of the matcher *)

Lemma one_Some (i : bool) (cc : cclass) (k : cont) (st r : mstate) :
  one i cc k st = Some r
  <-> exists c s', rest st = c :: s' /\ cc_matches i cc c = true
                   /\ k (mkState (Some c) s' (opened st) (group1 st)) = Some r.
Proof.
  unfold one. split.
  - intro H. destruct (rest st) as [|c s']; [discriminate|].
    destruct (cc_matches i cc c) eqn:E; [|discriminate]. eauto.
  - intros (c & s' & -> & -> & H). assumption.
Qed.

Lemma firstn_captured (A : Type) (a b : list A) :
  firstn (length (a ++ b) - length b) (a ++ b) = a.
Proof.
  rewrite length_app, Nat.add_sub, firstn_app, Nat.sub_diag, firstn_all.
  simpl. apply app_nil_r.
Qed.

End RegexFacts.

(** ** The statement validator *)

Module SpatialQueryFacts.

Import Regex RegexFacts SpatialQueryMiddleware.

(** *** The forbidden patterns *)

Lemma stacked_Lang (verb : string) (w : jsstring) :
  Lang true (nodes (stacked verb)) w
  <-> exists ws v ws',
        w = js ";" ++ ws ++ v ++ ws' /\ spaces ws /\ sameLetters v (js verb)
        /\ spaces ws' /\ ws' <> [].
Proof.
  change (nodes (stacked verb))
    with (One (Chr 59%N) :: Star Space :: map (fun c => One (Chr c)) (js verb) ++ [Plus Space]).
  rewrite Lang_one by reflexivity. split.
  - intros (w1 & -> & H). apply Lang_star_space in H as (ws & w2 & -> & Hws & H).
    apply Lang_word in H as (v & w3 & -> & Hv & H).
    apply Lang_plus_space in H as (ws' & w4 & -> & Hws' & Hne & ->).
    exists ws, v, ws'. rewrite app_nil_r. auto.
  - intros (ws & v & ws' & -> & Hws & Hv & Hws' & Hne).
    exists (ws ++ v ++ ws'). split; [reflexivity|].
    apply Lang_star_space. exists ws, (v ++ ws'). repeat split; [assumption|].
    apply Lang_word. exists v, ws'. repeat split; [assumption|].
    apply Lang_plus_space. exists ws', []. rewrite app_nil_r. repeat split; assumption.
Qed.

Lemma tautology_Lang (q : char16) (w : jsstring) :
  q = 39%N \/ q = dquote ->
  Lang true (nodes (tautology q)) w
  <-> exists ws1 o ws2 ws3 ws4,
        w = [q] ++ ws1 ++ o ++ ws2 ++ [q] ++ js "1" ++ [q]
            ++ ws3 ++ js "=" ++ ws4 ++ [q] ++ js "1"
        /\ spaces ws1 /\ sameLetters o (js "or") /\ spaces ws2 /\ ws2 <> []
        /\ spaces ws3 /\ spaces ws4.
Proof.
  intro Hq.
  assert (Hl : is_lower q = false) by (destruct Hq; subst; reflexivity).
  assert (Hu : is_upper q = false) by (destruct Hq; subst; reflexivity).
  change (nodes (tautology q))
    with (One (Chr q) :: Star Space :: map (fun c => One (Chr c)) (js "or")
          ++ [Plus Space; One (Chr q); One (Chr 49%N); One (Chr q); Star Space;
              One (Chr 61%N); Star Space; One (Chr q); One (Chr 49%N)]).
  rewrite Lang_one by assumption. split.
  - intros (w1 & -> & H). apply Lang_star_space in H as (ws1 & w2 & -> & Hws1 & H).
    apply Lang_word in H as (o & w3 & -> & Ho & H).
    apply Lang_plus_space in H as (ws2 & w4 & -> & Hws2 & Hne & H).
    apply Lang_one in H as (w5 & -> & H); [|assumption|assumption].
    apply Lang_one in H as (w6 & -> & H); [|reflexivity|reflexivity].
    apply Lang_one in H as (w7 & -> & H); [|assumption|assumption].
    apply Lang_star_space in H as (ws3 & w8 & -> & Hws3 & H).
    apply Lang_one in H as (w9 & -> & H); [|reflexivity|reflexivity].
    apply Lang_star_space in H as (ws4 & w10 & -> & Hws4 & H).
    apply Lang_one in H as (w11 & -> & H); [|assumption|assumption].
    apply Lang_one in H as (w12 & -> & ->); [|reflexivity|reflexivity].
    exists ws1, o, ws2, ws3, ws4. repeat split; assumption.
  - intros (ws1 & o & ws2 & ws3 & ws4 & -> & Hws1 & Ho & Hws2 & Hne & Hws3 & Hws4).
    eexists. split; [reflexivity|].
    apply Lang_star_space. do 2 eexists. repeat split; [eassumption|].
    apply Lang_word. do 2 eexists. repeat split; [eassumption|].
    apply Lang_plus_space. do 2 eexists. repeat split; [eassumption|assumption|].
    apply Lang_one; [assumption|assumption|]. eexists. split; [reflexivity|].
    apply Lang_one; [reflexivity|reflexivity|]. eexists. split; [reflexivity|].
    apply Lang_one; [assumption|assumption|]. eexists. split; [reflexivity|].
    apply Lang_star_space. do 2 eexists. repeat split; [eassumption|].
    apply Lang_one; [reflexivity|reflexivity|]. eexists. split; [reflexivity|].
    apply Lang_star_space. do 2 eexists. repeat split; [eassumption|].
    apply Lang_one; [assumption|assumption|]. eexists. split; [reflexivity|].
    apply Lang_one; [reflexivity|reflexivity|]. eexists. split; reflexivity.
Qed.

Lemma unionSelect_Lang (w : jsstring) :
  Lang true (nodes unionSelect) w
  <-> exists u ws sel,
        w = u ++ ws ++ sel /\ sameLetters u (js "union") /\ spaces ws /\ ws <> []
        /\ sameLetters sel (js "select").
Proof.
  change (nodes unionSelect)
    with (map (fun c => One (Chr c)) (js "union")
          ++ Plus Space :: map (fun c => One (Chr c)) (js "select") ++ []).
  rewrite Lang_word. split.
  - intros (u & w1 & -> & Hu & H).
    apply Lang_plus_space in H as (ws & w2 & -> & Hws & Hne & H).
    apply Lang_word in H as (sel & w3 & -> & Hsel & ->).
    exists u, ws, sel. rewrite app_nil_r. auto.
  - intros (u & ws & sel & -> & Hu & Hws & Hne & Hsel).
    exists u, (ws ++ sel). repeat split; [assumption|].
    apply Lang_plus_space. exists ws, sel. repeat split; [assumption|assumption|].
    apply Lang_word. exists sel, []. rewrite app_nil_r. repeat split; assumption.
Qed.

Lemma dangerousPatterns_consuming :
  Forall (fun pattern => Forall consuming (nodes pattern)) dangerousPatterns.
Proof. repeat constructor. Qed.

Lemma dangerousPatterns_families (pattern : regex) :
  In pattern dangerousPatterns
  <-> (exists verb, In verb verbs /\ pattern = stacked verb)
      \/ (exists q, (q = 39%N \/ q = dquote) /\ pattern = tautology q)
      \/ pattern = unionSelect.
Proof.
  unfold dangerousPatterns, verbs. simpl. split.
  - intros [<-|[<-|[<-|[<-|[<-|[<-|[<-|[<-|[<-|[]]]]]]]]]]; eauto 12.
  - intros [(verb & Hv & ->) | [(q & [-> | ->] & ->) | ->]]; auto 12.
    destruct Hv as [<-|[<-|[<-|[<-|[<-|[<-|[]]]]]]]; auto 12.
Qed.

(** A statement is forbidden exactly when one of the nine patterns occurs
    in it. *)
Lemma Forbidden_Occurs (sql : jsstring) :
  Forbidden sql <-> exists pattern, In pattern dangerousPatterns /\ Occurs pattern sql.
Proof.
  split.
  - intros [verb pre ws v ws' post Hverb Hv Hws Hws' Hne ->
           | q pre ws1 o ws2 ws3 ws4 post Hq Ho H1 H2 Hne H3 H4 ->
           | pre u ws sel post Hu Hws Hne Hsel ->].
    + exists (stacked verb). split; [apply dangerousPatterns_families; eauto|].
      exists pre, (js ";" ++ ws ++ v ++ ws'), post. split.
      * now rewrite <- !app_assoc.
      * apply stacked_Lang. exists ws, v, ws'. auto.
    + exists (tautology q). split; [apply dangerousPatterns_families; eauto|].
      eexists pre, _, post. split.
      * shelve.
      * apply tautology_Lang; [assumption|].
        exists ws1, o, ws2, ws3, ws4. repeat split; assumption.
        Unshelve. now rewrite <- !app_assoc.
    + exists unionSelect. split; [apply dangerousPatterns_families; auto|].
      exists pre, (u ++ ws ++ sel), post. split.
      * now rewrite <- !app_assoc.
      * apply unionSelect_Lang. exists u, ws, sel. auto.
  - intros (pattern & Hin & pre & w & post & -> & HL).
    apply dangerousPatterns_families in Hin
      as [(verb & Hv & ->) | [(q & Hq & ->) | ->]].
    + apply stacked_Lang in HL as (ws & v & ws' & -> & Hws & Hv' & Hws' & Hne).
      apply (@StackedVerb _ verb pre ws v ws' post); auto.
      now rewrite <- !app_assoc.
    + apply tautology_Lang in HL
        as (ws1 & o & ws2 & ws3 & ws4 & -> & H1 & Ho & H2 & Hne & H3 & H4);
        [|assumption].
      apply (@QuotedTautology _ q pre ws1 o ws2 ws3 ws4 post); auto.
      now rewrite <- !app_assoc.
    + apply unionSelect_Lang in HL as (u & ws & sel & -> & Hu & Hws & Hne & Hsel).
      apply (@UnionSelect _ pre u ws sel post); auto.
      now rewrite <- !app_assoc.
Qed.

(** *** The table pattern *)

Lemma afterName_total (st : mstate) : afterName st <> None.
Proof. discriminate. Qed.

Lemma afterSpace_fails (p : option char16) (c : char16) (s : jsstring)
    (o g : option jsstring) :
  cc_matches true Space c = true -> afterSpace (mkState p (c :: s) o g) = None.
Proof.
  simpl. intro H. unfold afterSpace, one. simpl.
  now rewrite (space_not_word _ H).
Qed.

Lemma match_at_table_unfold (p : option char16) (s : jsstring) :
  match_at tablePattern p s
  = if at_boundary (mkState p s None None) then
      one true (Chr 102%N) (one true (Chr 114%N) (one true (Chr 111%N)
        (one true (Chr 109%N) (one true Space (starK true Space afterSpace)))))
        (mkState p s None None)
    else None.
Proof. reflexivity. Qed.

(** A match of [tablePattern] at a position is a FROM clause there, and
    there is but one: the white space and the name are read in full. *)
Lemma match_at_table (p : option char16) (s : jsstring) (m : mstate) :
  match_at tablePattern p s = Some m
  <-> exists w post, fromClause p s w post /\ m = tableMatch w post.
Proof.
  rewrite match_at_table_unfold. split.
  - destruct (at_boundary (mkState p s None None)) eqn:Hb; [|discriminate].
    intro H.
    apply one_Some in H as (c1 & s1 & E1 & M1 & H). simpl in E1, H. subst s.
    apply one_Some in H as (c2 & s2 & E2 & M2 & H). simpl in E2, H. subst s1.
    apply one_Some in H as (c3 & s3 & E3 & M3 & H). simpl in E3, H. subst s2.
    apply one_Some in H as (c4 & s4 & E4 & M4 & H). simpl in E4, H. subst s3.
    apply one_Some in H as (c5 & s5 & E5 & M5 & H). simpl in E5, H. subst s4.
    unfold starK in H. simpl in H.
    apply star_sound in H as (u & v & -> & Hu & H).
    unfold afterSpace in H. simpl in H.
    apply one_Some in H as (c6 & s6 & E6 & M6 & H). simpl in E6, H. subst v.
    unfold starK in H. simpl prev in H. simpl rest in H. simpl opened in H.
    simpl group1 in H.
    apply star_sound_greedy in H as (u' & v' & -> & Hu' & Hv' & H);
      [|exact afterName_total].
    unfold afterName, step, captured in H. cbn [prev rest opened group1] in H.
    change (c6 :: u' ++ v') with ((c6 :: u') ++ v') in H.
    rewrite firstn_captured in H. injection H as <-.
    apply N.eqb_eq in M1, M2, M3, M4.
    exists (c6 :: u'), v'. split; [|reflexivity].
    exists [c1; c2; c3; c4], (c5 :: u). repeat split.
    + unfold sameLetters. simpl. congruence.
    + unfold at_boundary in Hb. simpl in Hb.
      destruct (@letter_is_word c1 102%N eq_refl M1) as [Hw _].
      rewrite Hw in Hb. now destruct (is_word_opt p).
    + constructor; assumption.
    + discriminate.
    + constructor; assumption.
    + discriminate.
    + destruct v'; [reflexivity | exact Hv'].
  - intros (w & post & (f & ws & -> & Hf & Hp & Hws & Hne & Hw & Hwne & Hpost) & ->).
    pose proof (sameLetters_length Hf) as Hlen.
    destruct f as [|c1 [|c2 [|c3 [|c4 [|? ?]]]]]; try discriminate.
    injection Hf as M1 M2 M3 M4.
    destruct ws as [|c5 u]; [congruence|]. inversion Hws as [|? ? M5 Hu]; subst.
    destruct w as [|c6 u']; [congruence|]. inversion Hw as [|? ? M6 Hu']; subst.
    assert (Hb : at_boundary (mkState p ([c1; c2; c3; c4] ++ (c5 :: u) ++ (c6 :: u') ++ post)
                                      None None) = true).
    { unfold at_boundary. simpl.
      destruct (@letter_is_word c1 102%N eq_refl M1) as [Hw1 _].
      now rewrite Hw1, Hp. }
    rewrite Hb.
    assert (M1' : cc_matches true (Chr 102%N) c1 = true) by (apply N.eqb_eq; exact M1).
    assert (M2' : cc_matches true (Chr 114%N) c2 = true) by (apply N.eqb_eq; exact M2).
    assert (M3' : cc_matches true (Chr 111%N) c3 = true) by (apply N.eqb_eq; exact M3).
    assert (M4' : cc_matches true (Chr 109%N) c4 = true) by (apply N.eqb_eq; exact M4).
    apply one_Some. do 2 eexists. split; [reflexivity|]. split; [exact M1'|].
    apply one_Some. do 2 eexists. split; [reflexivity|]. split; [exact M2'|].
    apply one_Some. do 2 eexists. split; [reflexivity|]. split; [exact M3'|].
    apply one_Some. do 2 eexists. split; [reflexivity|]. split; [exact M4'|].
    apply one_Some. do 2 eexists. split; [reflexivity|]. split; [exact M5|].
    unfold starK. cbn [prev rest opened group1].
    rewrite star_exact; [| intros; now apply afterSpace_fails | exact Hu
                         | simpl; now apply word_not_space].
    unfold afterSpace, step. cbn [prev rest opened group1].
    apply one_Some. do 2 eexists. split; [reflexivity|]. split; [exact M6|].
    unfold starK. cbn [prev rest opened group1].
    rewrite star_greedy; [| exact afterName_total | exact Hu'
                          | destruct post; [exact I | exact Hpost]].
    unfold afterName, step, captured. cbn [prev rest opened group1].
    change (c6 :: u' ++ post) with ((c6 :: u') ++ post).
    rewrite firstn_captured. reflexivity.
Qed.

(** *** Where a FROM clause can lie, relative to a match *)

(** White space read by a match cannot hide the start of a clause: a
    clause starts with a letter. *)
Lemma skip_spaces (ws : jsstring) : forall u r c occ,
  spaces ws -> is_space c = false -> ws ++ r = u ++ c :: occ ->
  exists u', u = ws ++ u' /\ r = u' ++ c :: occ.
Proof.
  induction ws as [|x ws IH]; intros u r c occ Hws Hc E.
  - exists u. auto.
  - inversion Hws as [|? ? Hx Hws']; subst. destruct u as [|y u]; simpl in E.
    + injection E as -> _. congruence.
    + injection E as <- E. destruct (IH _ _ _ _ Hws' Hc E) as (u' & -> & ->).
      exists u'. auto.
Qed.

(** A word read by a match holds no position that follows a character
    which is not a word character, its own start aside. *)
Lemma skip_word (w : jsstring) : forall p u r occ,
  wordChars w -> w ++ r = u ++ occ -> is_word_opt (lastOr p u) = false ->
  u = [] \/ exists u', u = w ++ u' /\ r = u' ++ occ.
Proof.
  induction w as [|x w IH]; intros p u r occ Hw E Hp.
  - right. exists u. auto.
  - inversion Hw as [|? ? Hx Hw']; subst. destruct u as [|y u]; [now left|].
    simpl in E. injection E as <- E. right. simpl in Hp.
    destruct (IH (Some x) u r occ Hw' E Hp) as [-> | (u' & -> & ->)].
    + simpl in Hp. congruence.
    + exists u'. auto.
Qed.

(** A word read in full is determined by the input. *)
Lemma word_in_full (a : jsstring) : forall a' b b',
  wordChars a -> is_word_opt (hd_error b) = false ->
  wordChars a' -> is_word_opt (hd_error b') = false ->
  a ++ b = a' ++ b' -> a = a'.
Proof.
  induction a as [|x a IH]; intros a' b b' Ha Hb Ha' Hb' E.
  - destruct a' as [|y a']; [reflexivity|]. simpl in E. subst b.
    inversion Ha'; subst. simpl in Hb. congruence.
  - inversion Ha as [|? ? Hx Ha1]; subst. destruct a' as [|y a'].
    + simpl in E. subst b'. simpl in Hb'. congruence.
    + inversion Ha' as [|? ? Hy Ha1']; subst. simpl in E. injection E as <- E.
      f_equal. exact (IH a' b b' Ha1 Hb Ha1' Hb' E).
Qed.

Lemma spaces_hd_not_word (ws r : jsstring) :
  spaces ws -> ws <> [] -> is_word_opt (hd_error (ws ++ r)) = false.
Proof.
  intros Hws Hne. destruct ws as [|c ws]; [congruence|].
  inversion Hws; subst. simpl. now apply space_not_word.
Qed.

Lemma from_letters : Forall (fun p => is_lower p = true) (js "from").
Proof. repeat constructor. Qed.

Lemma namesTableFrom_app (p : option char16) (a b t : jsstring) :
  namesTableFrom (lastOr p a) b t -> namesTableFrom p (a ++ b) t.
Proof.
  intros (pre & s' & w & post & -> & Hfc & ->).
  exists (a ++ pre), s', w, post. rewrite lastOr_app, app_assoc. auto.
Qed.

Lemma fromClause_names (p : option char16) (s w post : jsstring) :
  fromClause p s w post -> namesTableFrom p s (toLowerCase w).
Proof. intro H. exists [], s, w, post. auto. Qed.

(** The length of the input a match leaves. *)
Lemma fromClause_length (p : option char16) (s w post : jsstring) :
  fromClause p s w post -> length post < length s.
Proof.
  intros (f & ws & -> & Hf & _ & _ & _ & _ & Hw & _).
  apply sameLetters_length in Hf. rewrite !length_app, Hf. simpl. lia.
Qed.

(** A match that starts before a FROM clause either ends before it, or
    has read the clause's [from] as its own table name. *)
Lemma clause_after_match (p : option char16) (pre s' w post w0 post0 : jsstring) :
  pre <> [] ->
  fromClause p (pre ++ s') w0 post0 ->
  fromClause (lastOr p pre) s' w post ->
  toLowerCase w0 = js "from"
  \/ exists u, post0 = u ++ s' /\ fromClause (lastOr (lastOr None w0) u) s' w post.
Proof.
  intros Hpre (f0 & ws0 & E & Hf0 & Hp0 & Hws0 & Hws0ne & Hw0 & Hw0ne & Hpost0)
         (f1 & ws1 & Es' & Hf1 & Hp1 & Hws1 & Hws1ne & Hw1 & Hw1ne & Hpost1).
  destruct (sameLetters_word from_letters Hf0) as [Hf0w _].
  destruct (sameLetters_word from_letters Hf1) as [Hf1w Hf1l].
  pose proof (sameLetters_length Hf1) as Hlen1.
  destruct f1 as [|c1 f1']; [discriminate|].
  assert (Hc1 : is_space c1 = false)
    by (inversion Hf1w; subst; now apply word_not_space).
  destruct (@skip_word f0 p pre (ws0 ++ w0 ++ post0) s' Hf0w (eq_sym E) Hp1)
    as [-> | (u1 & -> & E1)]; [congruence|].
  rewrite Es' in E1. simpl in E1.
  destruct (@skip_spaces ws0 u1 (w0 ++ post0) c1 _ Hws0 Hc1 E1) as (u2 & -> & E2).
  rewrite !lastOr_app in Hp1.
  destruct (@skip_word w0 (lastOr (lastOr p f0) ws0) u2 post0 (c1 :: f1' ++ ws1 ++ w ++ post)
                       Hw0 E2 Hp1) as [-> | (u3 & -> & E3)].
  - left. simpl in E2.
    assert (w0 = c1 :: f1') as ->.
    { apply (@word_in_full w0 (c1 :: f1') post0 (ws1 ++ w ++ post)); auto.
      now apply spaces_hd_not_word. }
    assumption.
  - right. exists u3. rewrite Es'. split; [assumption|].
    rewrite lastOr_app in Hp1.
    rewrite (@lastOr_nonempty _ None w0) in Hp1 by assumption.
    exists (c1 :: f1'), ws1. repeat split; assumption.
Qed.

(** *** The loop over the FROM clauses *)

Lemma search_unfold (re : regex) (p : option char16) (s : jsstring) :
  search re p s
  = match match_at re p s with
    | Some m => Some m
    | None => match s with [] => None | c :: s' => search re (Some c) s' end
    end.
Proof. destruct s; reflexivity. Qed.

(** What [exec] finds is a FROM clause of the input. *)
Lemma search_table (s : jsstring) : forall p m,
  search tablePattern p s = Some m ->
  exists pre s' w post,
    s = pre ++ s' /\ fromClause (lastOr p pre) s' w post /\ m = tableMatch w post.
Proof.
  induction s as [|c s IH]; intros p m H; rewrite search_unfold in H.
  - destruct (match_at tablePattern p []) eqn:E; [|discriminate].
    injection H as ->. apply match_at_table in E as (w & post & Hfc & ->).
    exists [], [], w, post. auto.
  - destruct (match_at tablePattern p (c :: s)) eqn:E.
    + injection H as ->. apply match_at_table in E as (w & post & Hfc & ->).
      exists [], (c :: s), w, post. auto.
    + apply IH in H as (pre & s' & w & post & -> & Hfc & ->).
      exists (c :: pre), s', w, post. auto.
Qed.

Lemma tableLoop_S (fuel : nat) (allowedTables : list jsstring)
    (p : option char16) (s : jsstring) :
  tableLoop (S fuel) allowedTables p s
  = match search tablePattern p s with
    | None => Some (mkValidation true None)
    | Some m =>
        match option_map toLowerCase (group1 m) with
        | Some t =>
            if truthy_str t && negb (includes allowedTables t)
            then Some (tableError t)
            else tableLoop fuel allowedTables (prev m) (rest m)
        | None => tableLoop fuel allowedTables (prev m) (rest m)
        end
    end.
Proof. reflexivity. Qed.

Lemma toLowerCase_truthy (w : jsstring) : w <> [] -> truthy_str (toLowerCase w) = true.
Proof. destruct w; [congruence | reflexivity]. Qed.

(** The loop comes to an end: with more fuel than the input is long it
    returns a result. *)
Lemma tableLoop_total (allowedTables : list jsstring) (fuel : nat) : forall p s,
  length s < fuel -> exists r, tableLoop fuel allowedTables p s = Some r.
Proof.
  induction fuel as [|fuel IH]; intros p s Hlen; [lia|]. rewrite tableLoop_S.
  destruct (search tablePattern p s) as [m|] eqn:E; [|eauto].
  apply search_table in E as (pre & s' & w & post & -> & Hfc & ->).
  cbn [tableMatch group1 option_map prev rest].
  apply fromClause_length in Hfc. rewrite length_app in Hlen.
  destruct (truthy_str (toLowerCase w) && negb (includes allowedTables (toLowerCase w)));
    [eauto|].
  apply IH. lia.
Qed.

(** [validateSQLQuery] returns a result on every statement. *)
Lemma validateSQLQuery_total (sql : jsstring) (allowedTables : list jsstring) :
  exists r, validateSQLQuery sql allowedTables = Some r.
Proof.
  unfold validateSQLQuery. destruct (patternLoop dangerousPatterns sql); [eauto|].
  apply tableLoop_total. lia.
Qed.

Section TableLoop.

Variable allowedTables : list jsstring.
Hypothesis from_not_allowed : ~ In (js "from") allowedTables.

(** When the input from the current position on names a table that is not
    allowed, the loop rejects: an earlier FROM clause is rejected, or the
    loop reaches this one.  A match cannot jump over a clause, other than
    by reading its [from] as a table name, and [from] is not allowed. *)
Lemma tableLoop_rejects (fuel : nat) : forall p s t,
  length s < fuel -> namesTableFrom p s t -> ~ In t allowedTables ->
  exists t', namesTableFrom p s t' /\ ~ In t' allowedTables
             /\ tableLoop fuel allowedTables p s = Some (tableError t').
Proof.
  induction fuel as [|fuel IHfuel]; intros p s t Hlen Hnames Hbad; [lia|].
  destruct Hnames as (pre & s' & w & post & -> & Hfc & ->).
  revert p Hlen Hfc. induction pre as [|c pre IHpre]; intros p Hlen Hfc.
  - (* the clause is at the current position *)
    rewrite tableLoop_S, search_unfold. cbn [app].
    rewrite (proj2 (match_at_table p s' (tableMatch w post)))
      by (exists w, post; auto).
    cbn [tableMatch group1 option_map prev rest].
    pose proof Hfc as (f & ws & _ & _ & _ & _ & _ & _ & Hwne & _).
    rewrite toLowerCase_truthy by assumption.
    rewrite (proj2 (includes_not_In _ _) Hbad). cbn [negb andb].
    exists (toLowerCase w). split; [|split; [assumption | reflexivity]].
    exact (fromClause_names Hfc).
  - (* the clause is further on *)
    change ((c :: pre) ++ s') with (c :: pre ++ s') in *.
    rewrite tableLoop_S, search_unfold.
    destruct (match_at tablePattern p (c :: pre ++ s')) as [m|] eqn:Hm.
    + (* a match at the current position *)
      apply match_at_table in Hm as (w0 & post0 & Hfc0 & ->).
      cbn [tableMatch group1 option_map prev rest].
      pose proof (fromClause_names Hfc0) as Hnames0.
      pose proof (fromClause_length Hfc0) as Hlen0.
      pose proof Hfc0 as (f0 & ws0 & E & _ & _ & _ & _ & _ & Hw0ne & _).
      rewrite toLowerCase_truthy by assumption.
      destruct (includes allowedTables (toLowerCase w0)) eqn:Hinc; cbn [negb andb].
      * (* its table is allowed: the loop goes on after it *)
        destruct (@clause_after_match p (c :: pre) s' w post w0 post0)
          as [Hfrom | (u & Epost & Hfc')];
          [discriminate | assumption | assumption | |].
        -- exfalso. apply from_not_allowed. rewrite <- Hfrom. now apply includes_In.
        -- destruct (IHfuel (lastOr None w0) post0 (toLowerCase w))
             as (t' & Hn & Hb & Hloop).
           ++ simpl in Hlen, Hlen0. lia.
           ++ exists u, s', w, post. auto.
           ++ assumption.
           ++ exists t'. split; [|split; [assumption | exact Hloop]].
              rewrite E. rewrite !app_assoc. apply namesTableFrom_app.
              rewrite <- !app_assoc, !lastOr_app.
              now rewrite (@lastOr_nonempty _ None w0) by assumption.
      * exists (toLowerCase w0). split; [assumption|]. split; [|reflexivity].
        now apply includes_not_In.
    + (* no match here: the search moves on by one code unit *)
      destruct (IHpre (Some c)) as (t' & Hn & Hb & Hloop).
      * simpl in Hlen. lia.
      * exact Hfc.
      * exists t'. split; [|split; [assumption|]].
        -- now apply (@namesTableFrom_app p [c]).
        -- rewrite tableLoop_S in Hloop. exact Hloop.
Qed.

End TableLoop.

(** *** The loop over the patterns *)

Lemma patternLoop_None (patterns : list regex) (sql : jsstring) :
  patternLoop patterns sql = None
  <-> forall pattern, In pattern patterns -> test pattern sql = false.
Proof.
  induction patterns as [|p ps IH]; simpl.
  - split; [intros _ ? [] | reflexivity].
  - destruct (test p sql) eqn:E.
    + split; [discriminate|]. intro H. specialize (H p (or_introl eq_refl)). congruence.
    + rewrite IH. split.
      * intros H q [<-|Hq]; auto.
      * intros H q Hq. apply H. now right.
Qed.

(** The loop returns with the first pattern of the list that matches. *)
Lemma patternLoop_Some (patterns : list regex) (sql : jsstring) (r : validation) :
  patternLoop patterns sql = Some r ->
  exists pattern, In pattern patterns /\ test pattern sql = true
                  /\ r = patternError pattern.
Proof.
  induction patterns as [|p ps IH]; simpl; [discriminate|].
  destruct (test p sql) eqn:E.
  - intro H. injection H as <-. exists p. auto.
  - intro H. destruct (IH H) as (q & Hq & Ht & ->). exists q. auto.
Qed.

Lemma patternLoop_matches (patterns : list regex) (sql : jsstring) (pattern : regex) :
  In pattern patterns -> test pattern sql = true ->
  exists r, patternLoop patterns sql = Some r.
Proof.
  intros Hin Ht. destruct (patternLoop patterns sql) as [r|] eqn:E; [eauto|].
  rewrite patternLoop_None in E. rewrite (E _ Hin) in Ht. discriminate.
Qed.

Lemma dangerous_test_Occurs (pattern : regex) (sql : jsstring) :
  In pattern dangerousPatterns -> test pattern sql = true <-> Occurs pattern sql.
Proof.
  intro Hin. apply test_Occurs.
  exact (proj1 (Forall_forall _ _) dangerousPatterns_consuming _ Hin).
Qed.

(** The scan rejects exactly the forbidden statements. *)
Lemma scan_rejects_Forbidden (sql : jsstring) :
  (exists r, patternLoop dangerousPatterns sql = Some r) <-> Forbidden sql.
Proof.
  rewrite Forbidden_Occurs. split.
  - intros (r & H). apply patternLoop_Some in H as (p & Hin & Ht & _).
    exists p. split; [assumption|]. now apply dangerous_test_Occurs.
  - intros (p & Hin & Ho). eapply patternLoop_matches; [eassumption|].
    now apply dangerous_test_Occurs.
Qed.

(** C6, as amended.  The scan rejects every statement in which one of the
    nine patterns occurs, that is, every statement that holds

    - a semicolon, optional white space, one of [drop], [delete], [update],
      [insert], [truncate], [alter] in any letter case, and white space; or
    - the quoted tautology [' or '1'='1] (or the same with double quotes),
      with its white space free; or
    - [union], white space and [select];

    and the error names the source of a pattern that matched.  A statement
    that holds none of these passes the scan: what [validateSQLQuery]
    returns is then the outcome of the table check. *)
Theorem C6_forbidden_statements_rejected (sql : jsstring) (allowedTables : list jsstring) :
  (Forbidden sql ->
   exists pattern,
     In pattern dangerousPatterns /\ Occurs pattern sql
     /\ validateSQLQuery sql allowedTables = Some (patternError pattern))
  /\ (~ Forbidden sql ->
      validateSQLQuery sql allowedTables
      = tableLoop (S (length sql)) allowedTables None sql).
Proof.
  unfold validateSQLQuery. split; intro H.
  - apply scan_rejects_Forbidden in H as (r & H). rewrite H.
    apply patternLoop_Some in H as (p & Hin & Ht & ->).
    exists p. repeat split; [assumption|]. now apply dangerous_test_Occurs.
  - destruct (patternLoop dangerousPatterns sql) as [r|] eqn:E; [|reflexivity].
    exfalso. apply H. apply scan_rejects_Forbidden. eauto.
Qed.

(** *** Tables outside the whitelist *)

(** A statement that names, in a FROM clause, a table outside the
    whitelist is rejected; when no forbidden pattern occurs in it, the
    error is that of a table it names which is outside the whitelist. *)
Lemma rejects_unlisted_table (sql : jsstring) (allowedTables : list jsstring) (t : jsstring) :
  ~ In (js "from") allowedTables -> namesTable sql t -> ~ In t allowedTables ->
  exists r,
    validateSQLQuery sql allowedTables = Some r /\ valid r = false
    /\ (patternLoop dangerousPatterns sql = None ->
        exists t', namesTable sql t' /\ ~ In t' allowedTables /\ r = tableError t').
Proof.
  intros Hfrom Hnames Hbad. unfold validateSQLQuery.
  destruct (patternLoop dangerousPatterns sql) as [r|] eqn:E.
  - exists r. apply patternLoop_Some in E as (pattern & _ & _ & ->).
    repeat split. discriminate.
  - destruct (@tableLoop_rejects allowedTables Hfrom (S (length sql)) None sql t)
      as (t' & Hn & Hb & ->); auto.
    exists (tableError t'). repeat split. intros _. exists t'. auto.
Qed.

(** C7, as amended.  Let the whitelist not hold the word [from].  Every
    statement that names, in a FROM clause, a table outside the whitelist
    fails validation.  If one of the forbidden patterns occurs in the
    statement, the error names that pattern, and no table; otherwise the
    error is [Table not in allowed list: t] for a table [t] that the
    statement names and the whitelist does not hold. *)
Theorem C7_unlisted_table_rejected (sql : jsstring) (allowedTables : list jsstring)
    (t : jsstring) :
  ~ In (js "from") allowedTables -> namesTable sql t -> ~ In t allowedTables ->
  (exists pattern,
     In pattern dangerousPatterns /\ Occurs pattern sql
     /\ validateSQLQuery sql allowedTables = Some (patternError pattern))
  \/ (~ Forbidden sql
      /\ exists t', namesTable sql t' /\ ~ In t' allowedTables
                    /\ validateSQLQuery sql allowedTables = Some (tableError t')).
Proof.
  intros Hfrom Hnames Hbad.
  destruct (@rejects_unlisted_table sql allowedTables t Hfrom Hnames Hbad)
    as (r & Hr & _ & Htable).
  destruct (patternLoop dangerousPatterns sql) as [r'|] eqn:E.
  - left. unfold validateSQLQuery. rewrite E.
    apply patternLoop_Some in E as (pattern & Hin & Ht & ->).
    exists pattern. repeat split; [assumption|]. now apply dangerous_test_Occurs.
  - right. split.
    + intro HF. apply scan_rejects_Forbidden in HF as (r' & HF). congruence.
    + destruct (Htable eq_refl) as (t' & Hn & Hb & ->). eauto.
Qed.

Lemma default_tables_without_from : ~ In (js "from") DEFAULT_ALLOWED_TABLES.
Proof. intro H. apply includes_In in H. discriminate. Qed.

Lemma secrets_not_listed : ~ In (js "secrets") DEFAULT_ALLOWED_TABLES.
Proof. intro H. apply includes_In in H. discriminate. Qed.

Lemma fromSecrets_names_secrets (rest : jsstring) :
  is_word_opt (hd_error rest) = false ->
  namesTable (js "SELECT * FROM secrets" ++ rest) (js "secrets").
Proof.
  intro H. exists (js "SELECT * "), (js "FROM secrets" ++ rest), (js "secrets"), rest.
  repeat split.
  exists (js "FROM"), (js " ").
  repeat split; try discriminate; try assumption; repeat constructor.
Qed.

Lemma C7_unlisted_table_rejected_witness :
  (exists pattern,
     In pattern dangerousPatterns /\ Occurs pattern fromSecrets
     /\ validateSQLQuery fromSecrets DEFAULT_ALLOWED_TABLES = Some (patternError pattern))
  \/ (~ Forbidden fromSecrets
      /\ exists t', namesTable fromSecrets t' /\ ~ In t' DEFAULT_ALLOWED_TABLES
                    /\ validateSQLQuery fromSecrets DEFAULT_ALLOWED_TABLES
                       = Some (tableError t')).
Proof.
  apply (@C7_unlisted_table_rejected fromSecrets DEFAULT_ALLOWED_TABLES (js "secrets")).
  - exact default_tables_without_from.
  - exact (@fromSecrets_names_secrets (js " WHERE id = 1") eq_refl).
  - exact secrets_not_listed.
Defined.

Example fromSecrets_rejected :
  validateSQLQuery fromSecrets DEFAULT_ALLOWED_TABLES = Some (tableError (js "secrets")).
Proof. vm_compute. reflexivity. Qed.

(** C7, as the claim states it, fails: this statement names the table
    [secrets], which is outside the whitelist, and the error it is rejected
    with names a pattern and not the table. *)
Lemma C7_counterexample_pattern_error_first :
  namesTable fromSecretsStacked (js "secrets")
  /\ ~ In (js "secrets") DEFAULT_ALLOWED_TABLES
  /\ validateSQLQuery fromSecretsStacked DEFAULT_ALLOWED_TABLES
     = Some (mkValidation false
               (Some (js "Potentially dangerous SQL pattern detected: ;\s*drop\s+"))).
Proof.
  split; [|split].
  - exact (@fromSecrets_names_secrets (js "; DROP TABLE secrets") eq_refl).
  - exact secrets_not_listed.
  - vm_compute. reflexivity.
Qed.

(** The table check reads the word after [from] and nothing else: a table
    that follows a comma, or one whose name is quoted, is not looked at. *)
Example second_table_not_checked :
  validateSQLQuery (js "SELECT * FROM drone_trajectory, secrets") DEFAULT_ALLOWED_TABLES
  = Some (mkValidation true None).
Proof. vm_compute. reflexivity. Qed.

Example quoted_table_not_checked :
  validateSQLQuery (js "SELECT * FROM " ++ [dquote] ++ js "secrets" ++ [dquote])
                   DEFAULT_ALLOWED_TABLES
  = Some (mkValidation true None).
Proof. vm_compute. reflexivity. Qed.

(** A stacked [DROP], in mixed case and on a line of its own, is
    rejected, and the error names the pattern; a [DELETE] on its own goes
    on to the table check. *)
Lemma C6_forbidden_statements_rejected_witness :
  (exists pattern,
     In pattern dangerousPatterns /\ Occurs pattern stackedDrop
     /\ validateSQLQuery stackedDrop DEFAULT_ALLOWED_TABLES = Some (patternError pattern))
  /\ validateSQLQuery plainDelete DEFAULT_ALLOWED_TABLES
     = tableLoop (S (length plainDelete)) DEFAULT_ALLOWED_TABLES None plainDelete.
Proof.
  split.
  - apply (proj1 (C6_forbidden_statements_rejected stackedDrop DEFAULT_ALLOWED_TABLES)).
    apply (@StackedVerb _ "drop"%string (js "SELECT 1") [10%N] (js "Drop")
                        (js "  ") (js "TABLE mission_log")).
    + simpl. auto.
    + reflexivity.
    + repeat constructor.
    + repeat constructor.
    + discriminate.
    + reflexivity.
  - apply (proj2 (C6_forbidden_statements_rejected plainDelete DEFAULT_ALLOWED_TABLES)).
    intro HF. apply scan_rejects_Forbidden in HF as (r & HF).
    vm_compute in HF. discriminate.
Defined.

(** C6, as the claim states it, fails: a statement that is nothing but a
    [DELETE] holds a non-SELECT verb, and validation accepts it. *)
Lemma C6_counterexample_unstacked_delete :
  validateSQLQuery plainDelete DEFAULT_ALLOWED_TABLES = Some (mkValidation true None).
Proof. vm_compute. reflexivity. Qed.

End SpatialQueryFacts.

(** ** The statement generator *)

Module PostGISFacts.

Import Regex RegexFacts SpatialQueryMiddleware SpatialQueryFacts JsNumber PostGIS.

(** The statement is the concatenation of its clauses; there is nothing
    else in what [generateSQL] returns. *)
Lemma generateSQL_clauses (query : SpatialQuery) (sql : jsstring) :
  generateSQL query = Statement sql
  <-> exists range, timeRangeClause query = Some range
      /\ sql = js "SELECT " ++ selectClause query ++ js " FROM spatial_data WHERE 1=1"
               ++ range ++ geometryClause query ++ orderByClause query
               ++ limitClause query.
Proof.
  unfold generateSQL. destruct (timeRangeClause query) as [range|]; split.
  - intro H. injection H as <-. exists range. split; [reflexivity|].
    now rewrite <- !app_assoc.
  - intros (range' & E & ->). injection E as <-. now rewrite <- !app_assoc.
  - discriminate.
  - intros (range & E & _). discriminate.
Qed.

(** [toISOString] succeeds on every valid date. *)
Lemma toISOString_valid (t : Z) : exists text, toISOString (ValidDate t) = Some text.
Proof.
  unfold toISOString. destruct (civil (t / 86400000)) as [[y m] d]. eauto.
Qed.

(** The only failure is that of [toISOString] on an invalid date. *)
Lemma generateSQL_RangeError (query : SpatialQuery) :
  generateSQL query = RangeError
  <-> exists range, timeRange query = Some range
      /\ (start range = InvalidDate \/ end' range = InvalidDate).
Proof.
  unfold generateSQL, timeRangeClause.
  destruct (timeRange query) as [[s e]|]; cbn [start end'].
  - destruct s as [ts|], e as [te|];
      try change (toISOString InvalidDate) with (@None jsstring).
    + destruct (toISOString_valid ts) as (a & ->).
      destruct (toISOString_valid te) as (b & ->).
      split; [discriminate|]. intros (r & E & [H|H]); injection E as <-; discriminate.
    + destruct (toISOString_valid ts) as (a & ->).
      split; [|reflexivity]. intros _. eexists. split; [reflexivity|]. now right.
    + split; [|reflexivity]. intros _. eexists. split; [reflexivity|]. now left.
    + split; [|reflexivity]. intros _. eexists. split; [reflexivity|]. now left.
  - split; [discriminate|]. intros (r & E & _). discriminate.
Qed.

(** *** What goes into the text *)

Lemma join_holds (sep : jsstring) (l : list jsstring) (x : jsstring) :
  In x l -> exists pre post, join sep l = pre ++ x ++ post.
Proof.
  induction l as [|y l IH]; [intros [] | intros [<-|H]].
  - destruct l as [|z l].
    + exists [], []. simpl. now rewrite app_nil_r.
    + exists [], (sep ++ join sep (z :: l)). reflexivity.
  - destruct (IH H) as (pre & post & E). destruct l as [|z l]; [destruct H|].
    exists (y ++ sep ++ pre), post.
    change (join sep (y :: z :: l)) with (y ++ sep ++ join sep (z :: l)).
    rewrite E. now rewrite <- !app_assoc.
Qed.

(** Every ordering field is part of the statement text, as it was given. *)
Lemma orderBy_field_in_text (query : SpatialQuery) (sql : jsstring)
    (l : list OrderBy) (o : OrderBy) :
  generateSQL query = Statement sql -> orderBy query = Some l -> In o l ->
  exists pre post, sql = pre ++ field o ++ post.
Proof.
  intros H Hl Ho. apply generateSQL_clauses in H as (range & _ & ->).
  unfold orderByClause. rewrite Hl. destruct l as [|o' l]; [destruct Ho|].
  destruct (@join_holds (js ", ")
              (map (fun o => field o ++ js " " ++ directionUpper (direction o)) (o' :: l))
              (field o ++ js " " ++ directionUpper (direction o)))
    as (pre & post & ->).
  - apply in_map_iff. exists o. auto.
  - eexists (js "SELECT " ++ selectClause query ++ js " FROM spatial_data WHERE 1=1"
             ++ range ++ geometryClause query ++ js " ORDER BY " ++ pre), _.
    rewrite <- !app_assoc. reflexivity.
Qed.

(** A limit that is not zero ends the statement text, as it was given:
    nothing is compared with it. *)
Lemma limit_in_text (query : SpatialQuery) (sql : jsstring) (n : number) :
  generateSQL query = Statement sql -> limit query = Some n -> truthy n = true ->
  exists pre, sql = pre ++ js " LIMIT " ++ toString n.
Proof.
  intros H Hl Ht. apply generateSQL_clauses in H as (range & _ & ->).
  unfold limitClause. rewrite Hl, Ht.
  eexists (js "SELECT " ++ selectClause query ++ js " FROM spatial_data WHERE 1=1"
           ++ range ++ geometryClause query ++ orderByClause query).
  now rewrite <- !app_assoc.
Qed.

(** Without a limit the statement has no [LIMIT] clause. *)
Lemma no_limit_no_clause (query : SpatialQuery) :
  limit query = None -> limitClause query = [].
Proof. unfold limitClause. now intros ->. Qed.

(** C2, at the failing input [stackedOrdering]: what [generateSQL] returns
    is text alone, with no bind values beside it, and the ordering field
    and the limit given by the caller are part of that text, verbatim; the
    field carries a statement of its own into it. *)
Theorem C2_literals_spliced_into_text :
  generateSQL stackedOrdering
  = Statement (js "SELECT * FROM spatial_data WHERE 1=1 ORDER BY id; DROP TABLE mission_log; -- ASC LIMIT 5").
Proof. vm_compute. reflexivity. Qed.

(** The sibling path binds its values: the text of [checkGeoFence] is the
    same for every fence and point. *)
Lemma checkGeoFence_text_constant (fence fence' : jsstring) (x y x' y' : number) :
  fst (checkGeoFenceCall fence x y) = fst (checkGeoFenceCall fence' x' y').
Proof. reflexivity. Qed.

(** C4, as amended.  [generateSQL] does not compare the bounds of the time
    range.  Whenever both are valid dates, in either order, it returns a
    statement, in which the two timestamps stand in the order given,
    between quotes; it fails, with the [RangeError] of [toISOString],
    exactly when a bound is an invalid date. *)
Theorem C4_time_range_not_checked (query : SpatialQuery) :
  (forall (s e : Z),
     timeRange query = Some (mkTimeRange (ValidDate s) (ValidDate e)) ->
     exists from to,
       toISOString (ValidDate s) = Some from /\ toISOString (ValidDate e) = Some to
       /\ generateSQL query
          = Statement (js "SELECT " ++ selectClause query
                       ++ js " FROM spatial_data WHERE 1=1"
                       ++ js " AND timestamp BETWEEN '" ++ from ++ js "' AND '" ++ to ++ js "'"
                       ++ geometryClause query ++ orderByClause query
                       ++ limitClause query))
  /\ (generateSQL query = RangeError
      <-> exists range, timeRange query = Some range
          /\ (start range = InvalidDate \/ end' range = InvalidDate)).
Proof.
  split; [|apply generateSQL_RangeError].
  intros s e Hr.
  destruct (toISOString_valid s) as (from & Hs).
  destruct (toISOString_valid e) as (to & He).
  exists from, to. repeat split; try assumption.
  apply generateSQL_clauses. unfold timeRangeClause. rewrite Hr. cbn [start end'].
  rewrite Hs, He. eexists. split; [reflexivity|].
  now rewrite <- !app_assoc.
Qed.

Lemma C4_time_range_not_checked_witness :
  exists from to,
    toISOString T1 = Some from /\ toISOString T0 = Some to
    /\ generateSQL reversedRange
       = Statement (js "SELECT " ++ selectClause reversedRange
                    ++ js " FROM spatial_data WHERE 1=1"
                    ++ js " AND timestamp BETWEEN '" ++ from ++ js "' AND '" ++ to ++ js "'"
                    ++ geometryClause reversedRange ++ orderByClause reversedRange
                    ++ limitClause reversedRange).
Proof.
  apply (proj1 (C4_time_range_not_checked reversedRange) 1704153600000%Z 1704067200000%Z).
  reflexivity.
Defined.

(** C4, as the claim states it, fails: the range of [reversedRange] starts
    a day after it ends, and [generateSQL] returns a statement. *)
Lemma C4_counterexample_reversed_range :
  timeRange reversedRange = Some (mkTimeRange T1 T0)
  /\ startsAfterEnd (mkTimeRange T1 T0)
  /\ generateSQL reversedRange
     = Statement (js "SELECT * FROM spatial_data WHERE 1=1 AND timestamp BETWEEN '2024-01-02T00:00:00.000Z' AND '2024-01-01T00:00:00.000Z'").
Proof.
  split; [reflexivity|]. split.
  - exists 1704153600000%Z, 1704067200000%Z. repeat split.
  - vm_compute. reflexivity.
Qed.

(** C5, at the failing input: with the maximum configured as 1000 rows
    (the default of [maxRows], which nothing reads), the query
    [limit5000] compiles to a statement that ends in [LIMIT 5000], and the
    same query without a limit to a statement without any [LIMIT]. *)
Theorem C5_limit_not_clamped :
  generateSQL limit5000
  = Statement (js "SELECT * FROM spatial_data WHERE 1=1 AND timestamp BETWEEN '2024-01-01T00:00:00.000Z' AND '2024-01-02T00:00:00.000Z' LIMIT 5000")
  /\ generateSQL unlimited
     = Statement (js "SELECT * FROM spatial_data WHERE 1=1 AND timestamp BETWEEN '2024-01-01T00:00:00.000Z' AND '2024-01-02T00:00:00.000Z'").
Proof. split; vm_compute; reflexivity. Qed.

(** The factory returns the same placeholder whatever maximum it is given. *)
Lemma middleware_ignores_maxRows (C : Type) (config : C)
    (tables : option (list jsstring)) (max1 max2 : option number) :
  createSpatialQueryMiddleware (mkSQOptions config tables max1)
  = createSpatialQueryMiddleware (mkSQOptions config tables max2).
Proof. reflexivity. Qed.

(** *** Generated statements against the validator *)

Lemma spatial_data_not_listed : ~ In (js "spatial_data") DEFAULT_ALLOWED_TABLES.
Proof. intro H. apply includes_In in H. discriminate. Qed.

(** Every generated statement names the table [spatial_data]. *)
Lemma generated_names_spatial_data (query : SpatialQuery) (sql : jsstring) :
  generateSQL query = Statement sql -> namesTable sql (js "spatial_data").
Proof.
  intro H. apply generateSQL_clauses in H as (range & _ & ->).
  exists (js "SELECT " ++ selectClause query ++ js " "),
         (js "FROM spatial_data WHERE 1=1" ++ range ++ geometryClause query
          ++ orderByClause query ++ limitClause query),
         (js "spatial_data"),
         (js " WHERE 1=1" ++ range ++ geometryClause query
          ++ orderByClause query ++ limitClause query).
  split; [now rewrite <- !app_assoc|]. split; [|reflexivity].
  exists (js "FROM"), (js " "). repeat split; try discriminate; repeat constructor.
  now rewrite !app_assoc, lastOr_app.
Qed.

(** C3.  Every statement that [generateSQL] returns holds the text
    [FROM spatial_data]; [spatial_data] is not one of the six default
    tables; and [validateSQLQuery], under the default whitelist, answers
    every such statement with [valid: false]. *)
Theorem C3_generated_statements_rejected (query : SpatialQuery) (sql : jsstring) :
  generateSQL query = Statement sql ->
  (exists pre post, sql = pre ++ js " FROM spatial_data" ++ post)
  /\ ~ In (js "spatial_data") DEFAULT_ALLOWED_TABLES
  /\ exists r, validateSQLQuery sql DEFAULT_ALLOWED_TABLES = Some r /\ valid r = false.
Proof.
  intro H. split; [|split; [exact spatial_data_not_listed|]].
  - apply generateSQL_clauses in H as (range & _ & ->).
    exists (js "SELECT " ++ selectClause query),
           (js " WHERE 1=1" ++ range ++ geometryClause query
            ++ orderByClause query ++ limitClause query).
    now rewrite <- !app_assoc.
  - destruct (@rejects_unlisted_table sql DEFAULT_ALLOWED_TABLES (js "spatial_data"))
      as (r & Hr & Hv & _).
    + exact default_tables_without_from.
    + exact (@generated_names_spatial_data query sql H).
    + exact spatial_data_not_listed.
    + eauto.
Qed.

Lemma C3_generated_statements_rejected_witness :
  (exists pre post,
     js "SELECT * FROM spatial_data WHERE 1=1 AND timestamp BETWEEN '2024-01-01T00:00:00.000Z' AND '2024-01-02T00:00:00.000Z' LIMIT 5000"
     = pre ++ js " FROM spatial_data" ++ post)
  /\ ~ In (js "spatial_data") DEFAULT_ALLOWED_TABLES
  /\ exists r,
       validateSQLQuery
         (js "SELECT * FROM spatial_data WHERE 1=1 AND timestamp BETWEEN '2024-01-01T00:00:00.000Z' AND '2024-01-02T00:00:00.000Z' LIMIT 5000")
         DEFAULT_ALLOWED_TABLES = Some r
       /\ valid r = false.
Proof.
  apply (@C3_generated_statements_rejected limit5000). vm_compute. reflexivity.
Defined.

End PostGISFacts.

(* ===================================================================== *)
(** * Part III.  Further properties of the code                           *)
(* ===================================================================== *)

(** ** [validateDeviceCommand] *)

Module DeviceControlMore.

Import DeviceControl.

(** The three answers of [validateDeviceCommand], and when each is given:
    an action outside the thirteen is refused as invalid, whatever the
    allow-list holds; one of the thirteen that an allow-list leaves out is
    refused as not allowed; every other action is accepted. *)
Theorem validateDeviceCommand_answers (action : jsstring) (allowed : option (list jsstring)) :
  (In action validActions
   /\ (allowed = None \/ exists l, allowed = Some l /\ In action l)
   /\ validateDeviceCommand action allowed = mkValidation true None)
  \/ (~ In action validActions
      /\ validateDeviceCommand action allowed
         = mkValidation false
             (Some (js "Invalid action: " ++ action ++ js ". Valid actions: "
                    ++ js "takeoff, land, move_to, return_home, pause, resume, stop, capture_photo, start_video, stop_video, set_altitude, set_speed, custom")))
  \/ (In action validActions
      /\ (exists l, allowed = Some l /\ ~ In action l)
      /\ validateDeviceCommand action allowed
         = mkValidation false (Some (js "Action not allowed: " ++ action))).
Proof.
  unfold validateDeviceCommand.
  destruct (includes validActions action) eqn:Hv; simpl.
  - apply includes_In in Hv. destruct allowed as [l|].
    + destruct (includes l action) eqn:Hl; simpl.
      * left. apply includes_In in Hl. eauto 6.
      * right. right. apply includes_not_In in Hl. eauto 6.
    + left. auto.
  - right. left. apply includes_not_In in Hv. split; [assumption | reflexivity].
Qed.

End DeviceControlMore.

(** ** The retrying request and the methods built on it *)

Module DeviceClientFacts.

Import DeviceBackend DeviceBackendFacts DeviceClient.

Lemma accepted_ok (o : outcome) (r : Response) : accepted o = Some r -> ok r = true.
Proof.
  destruct o as [r'| |]; simpl; try discriminate.
  destruct (ok r') eqn:E; [|discriminate]. intro H. injection H as <-. assumption.
Qed.

(** Among the attempts 1 to [n] there is a first accepted one, or none is
    accepted. *)
Lemma first_or_none (network : Z -> outcome) (n : nat) :
  (exists k r, 1 <= k <= n /\ firstAccepted network k r) \/ noneAccepted network n.
Proof.
  induction n as [|n [(k & r & Hk & Hf) | Hnone]].
  - right. intros j Hj. lia.
  - left. exists k, r. split; [lia | assumption].
  - destruct (accepted (network (Z.of_nat (S n)))) as [r|] eqn:E.
    + left. exists (S n), r. split; [lia|]. split; [assumption|].
      intros j Hj. apply Hnone. lia.
    + right. intros j Hj. destruct (Nat.eq_dec j (S n)) as [->|]; [assumption|].
      apply Hnone. lia.
Qed.

(** No attempt at all: nothing is requested and [null] is thrown. *)
Lemma fetch_no_attempts (config : DeviceConfig) (network : Z -> outcome) :
  Z.to_nat (maxAttempts (configRetry config)) = 0 ->
  fetch config network = ([], Throws None).
Proof. unfold fetch, attemptNumbers. now intros ->. Qed.

(** The four ways in which the loop of [fetch] ends. *)
Lemma fetch_cases (config : DeviceConfig) (network : Z -> outcome) :
  (signalAccepts (configTimeout config) = true
   /\ exists k r,
        1 <= k <= Z.to_nat (maxAttempts (configRetry config))
        /\ firstAccepted network k r /\ ok r = true
        /\ fetch config network = (schedule config k, Returns r))
  \/ (signalAccepts (configTimeout config) = true
      /\ 1 <= Z.to_nat (maxAttempts (configRetry config))
      /\ noneAccepted network (Z.to_nat (maxAttempts (configRetry config)))
      /\ fetch config network
         = (schedule config (Z.to_nat (maxAttempts (configRetry config))),
            Throws (Some (errorOf (network (maxAttempts (configRetry config)))))))
  \/ (signalAccepts (configTimeout config) = false
      /\ 1 <= Z.to_nat (maxAttempts (configRetry config))
      /\ fetch config network
         = (delays config (Z.to_nat (maxAttempts (configRetry config))),
            Throws (Some (SignalError (configTimeout config)))))
  \/ ((maxAttempts (configRetry config) < 1)%Z
      /\ fetch config network = ([], Throws None)).
Proof.
  remember (Z.to_nat (maxAttempts (configRetry config))) as n eqn:En.
  destruct n as [|m].
  { right. right. right. split; [lia|]. now apply fetch_no_attempts. }
  destruct (signalAccepts (configTimeout config)) eqn:HT.
  - destruct (first_or_none network (S m)) as [(k & r & Hk & Hf) | Hnone].
    + left. split; [reflexivity|]. exists k, r. destruct Hf as [Hacc Hbefore].
      repeat split; try lia; try assumption.
      * eapply accepted_ok; eassumption.
      * unfold fetch, attemptNumbers, schedule. rewrite <- En.
        apply attemptLoop_accepts; try assumption; lia.
    + right. left. repeat split; try lia; try assumption.
      unfold fetch, attemptNumbers, schedule. rewrite <- En.
      rewrite (@attemptLoop_exhausts config network m 1 None); rewrite <- ?En; try lia;
        try assumption.
      replace (Z.of_nat (S m)) with (maxAttempts (configRetry config)) by lia.
      now replace (S m - 1) with m by lia.
  - right. right. left. repeat split; try lia.
    unfold fetch, attemptNumbers, delays. rewrite <- En.
    rewrite (@attemptLoop_refused config network m 1 None); rewrite <- ?En; try lia;
      try assumption.
    now replace (S m - 1) with m by lia.
Qed.

(** Every call of [fetch] ends in one of four ways.  Under a timeout that
    [AbortSignal.timeout] accepts: with the response of the first accepted
    attempt [k], after the activity of [k] attempts; or with the error of
    the last attempt, after the activity of all [maxAttempts] attempts,
    none of which was accepted.  Under a timeout that is refused: with the
    signal's error, after the delays of [maxAttempts] iterations and no
    request.  And when [maxAttempts] is below 1: with [null] thrown and
    nothing done. *)
Theorem fetch_ends (config : DeviceConfig) (network : Z -> outcome) :
  (signalAccepts (configTimeout config) = true
   /\ exists k r,
        1 <= k <= Z.to_nat (maxAttempts (configRetry config))
        /\ firstAccepted network k r /\ ok r = true
        /\ fetch config network = (schedule config k, Returns r))
  \/ (signalAccepts (configTimeout config) = true
      /\ 1 <= Z.to_nat (maxAttempts (configRetry config))
      /\ noneAccepted network (Z.to_nat (maxAttempts (configRetry config)))
      /\ fetch config network
         = (schedule config (Z.to_nat (maxAttempts (configRetry config))),
            Throws (Some (errorOf (network (maxAttempts (configRetry config)))))))
  \/ (signalAccepts (configTimeout config) = false
      /\ 1 <= Z.to_nat (maxAttempts (configRetry config))
      /\ fetch config network
         = (delays config (Z.to_nat (maxAttempts (configRetry config))),
            Throws (Some (SignalError (configTimeout config)))))
  \/ ((maxAttempts (configRetry config) < 1)%Z
      /\ fetch config network = ([], Throws None)).
Proof. exact (fetch_cases config network). Qed.

(** *** The delays *)

Lemma schedule_waits (config : DeviceConfig) (k : nat) :
  waits (schedule config k) = k - 1
  /\ requests (schedule config k) = S (k - 1)
  /\ forall w, In (Wait w) (schedule config k) -> (w <= maxWait (configRetry config))%Z.
Proof.
  unfold schedule, waits, requests. generalize (k - 1) as m. generalize 1 as a.
  intros a m. revert a. induction m as [|m IH]; intro a; simpl.
  - repeat split. intros w [H|[]]. discriminate.
  - destruct (IH (S a)) as (Hw & Hr & Hb). repeat split.
    + now rewrite Hw.
    + now rewrite Hr.
    + intros w [H|[H|H]]; [discriminate | | now apply Hb].
      injection H as <-. apply Z.le_min_r.
Qed.

Lemma delays_waits (config : DeviceConfig) (k : nat) :
  waits (delays config k) = k - 1
  /\ requests (delays config k) = 0
  /\ forall w, In (Wait w) (delays config k) -> (w <= maxWait (configRetry config))%Z.
Proof.
  unfold delays, waits, requests. generalize (k - 1) as m. generalize 1 as a.
  intros a m. revert a. induction m as [|m IH]; intro a; simpl.
  - repeat split. intros w [].
  - destruct (IH (S a)) as (Hw & Hr & Hb). repeat split.
    + now rewrite Hw.
    + assumption.
    + intros w [H|H]; [|now apply Hb].
      injection H as <-. apply Z.le_min_r.
Qed.

(** No delay is longer than [maxWait].  Under a timeout that
    [AbortSignal.timeout] accepts, delays separate requests: there is one
    delay less than there are requests, and none when nothing is
    requested.  Under a timeout that is refused, nothing is requested, and
    the loop still waits between its [maxAttempts] iterations. *)
Theorem fetch_delays (config : DeviceConfig) (network : Z -> outcome) :
  (forall w, In (Wait w) (fst (fetch config network))
             -> (w <= maxWait (configRetry config))%Z)
  /\ ((signalAccepts (configTimeout config) = true
       /\ waits (fst (fetch config network)) = requests (fst (fetch config network)) - 1)
      \/ (signalAccepts (configTimeout config) = false
          /\ requests (fst (fetch config network)) = 0
          /\ waits (fst (fetch config network))
             = Z.to_nat (maxAttempts (configRetry config)) - 1)).
Proof.
  destruct (fetch_cases config network)
    as [(HT & k & r & _ & _ & _ & ->) | [(HT & _ & _ & ->) | [(HT & _ & ->) | (Hn & ->)]]];
    cbn [fst].
  - destruct (schedule_waits config k) as (Hw & Hr & Hb).
    split; [exact Hb|]. left. split; [assumption|]. rewrite Hw, Hr. lia.
  - destruct (schedule_waits config (Z.to_nat (maxAttempts (configRetry config))))
      as (Hw & Hr & Hb).
    split; [exact Hb|]. left. split; [assumption|]. rewrite Hw, Hr. lia.
  - destruct (delays_waits config (Z.to_nat (maxAttempts (configRetry config))))
      as (Hw & Hr & Hb).
    split; [exact Hb|]. right. auto.
  - split; [intros w []|].
    destruct (signalAccepts (configTimeout config)); [left | right]; cbn.
    + auto.
    + repeat split. lia.
Qed.

(** *** [cancelCommand] *)

(** [cancelCommand] answers [true] exactly when [AbortSignal.timeout]
    accepts the timeout and one of the attempts 1 to [maxAttempts] is
    accepted; every failure, of the signal, of the network or of the
    device, comes out as [false]. *)
Theorem cancelCommand_true (config : DeviceConfig) (network : Z -> outcome) :
  snd (cancelCommand config network) = true
  <-> signalAccepts (configTimeout config) = true
      /\ exists k r, 1 <= k <= Z.to_nat (maxAttempts (configRetry config))
                     /\ accepted (network (Z.of_nat k)) = Some r.
Proof.
  unfold cancelCommand.
  destruct (fetch_cases config network)
    as [(HT & k & r & Hk & [Hacc _] & Hok & ->)
       | [(HT & _ & Hnone & ->) | [(HT & _ & ->) | (Hn & ->)]]]; simpl.
  - split; [eauto | intros _; assumption].
  - split; [discriminate|]. intros (_ & k & r & Hk & Hacc).
    rewrite (Hnone k Hk) in Hacc. discriminate.
  - split; [discriminate|]. intros (HT' & _). congruence.
  - split; [discriminate|]. intros (_ & k & r & Hk & _). lia.
Qed.

(** *** [connect] *)

(** [connect] makes no request when the backend is connected.  Otherwise
    the backend is connected afterwards exactly when [fetch] returned, and
    what is thrown is what [fetch] throws: the error
    [Failed to connect to device API] is never raised, since [fetch]
    returns none but accepted responses. *)
Theorem connect_outcomes (config : DeviceConfig) (network : Z -> outcome) :
  connect true config network = ([], true, Done tt)
  /\ ((exists r, fetch config network = (fst (fetch config network), Returns r)
                 /\ connect false config network
                    = (fst (fetch config network), true, Done tt))
      \/ (exists e, fetch config network = (fst (fetch config network), Throws e)
                    /\ connect false config network
                       = (fst (fetch config network), false, Raised e))).
Proof.
  split; [reflexivity|]. unfold connect.
  destruct (fetch_cases config network)
    as [(_ & k & r & _ & _ & Hok & ->) | [(_ & _ & _ & ->) | [(_ & _ & ->) | (_ & ->)]]];
    simpl.
  - left. exists r. rewrite Hok. auto.
  - right. eauto.
  - right. eauto.
  - right. eauto.
Qed.

(** *** [getDevice] and [getCommandStatus] *)

Section Json.

Variable J : Type.
Variable parse : jsstring -> J + Error.

(** [getDevice] (and [getCommandStatus]) never throw.  Under a timeout
    that [AbortSignal.timeout] accepts they give the parsed body of the
    first accepted response, [null] if that body does not parse; they give
    [null] when the timeout is refused or no attempt is accepted. *)
Theorem getOrNull_answers (config : DeviceConfig) (network : Z -> outcome) :
  (signalAccepts (configTimeout config) = true
   /\ exists k r,
        1 <= k <= Z.to_nat (maxAttempts (configRetry config))
        /\ firstAccepted network k r
        /\ snd (getOrNull parse config network)
           = match parse (body r) with inl v => Some v | inr _ => None end)
  \/ ((signalAccepts (configTimeout config) = false
       \/ noneAccepted network (Z.to_nat (maxAttempts (configRetry config))))
      /\ snd (getOrNull parse config network) = None).
Proof.
  unfold getOrNull.
  destruct (fetch_cases config network)
    as [(HT & k & r & Hk & Hf & Hok & ->)
       | [(_ & _ & Hnone & ->) | [(HT & _ & ->) | (Hn & ->)]]].
  - left. split; [assumption|]. exists k, r. rewrite Hok. simpl.
    repeat split; try lia; try apply Hf. now destruct (parse (body r)).
  - right. auto.
  - right. auto.
  - right. split; [|reflexivity]. right. intros j Hj. lia.
Qed.

End Json.

End DeviceClientFacts.

(** ** The telemetry stream *)

Module TelemetryFacts.

Import Telemetry DeviceClient.

Lemma split_nonempty (sep : char16) (s : jsstring) : split sep s <> [].
Proof.
  destruct s as [|c s]; simpl; [discriminate|].
  destruct (c =? sep)%N; [discriminate|]. destruct (split sep s); discriminate.
Qed.

(** Splitting distributes over a separator. *)
Lemma split_at_separator (sep : char16) (a b : jsstring) :
  split sep (a ++ sep :: b) = split sep a ++ split sep b.
Proof.
  induction a as [|c a IH]; simpl.
  - now rewrite N.eqb_refl.
  - destruct (c =? sep)%N; [now rewrite IH|]. rewrite IH.
    pose proof (split_nonempty sep a) as Hne.
    destruct (split sep a); [congruence | reflexivity].
Qed.

Lemma startsWith_iff (s prefix : jsstring) :
  startsWith s prefix = true <-> exists rest, s = prefix ++ rest.
Proof.
  revert s. induction prefix as [|p prefix IH]; intro s.
  - split; [intros _; exists s; reflexivity | intros _; destruct s; reflexivity].
  - destruct s as [|c s]; simpl.
    + split; [discriminate | intros (rest & H); discriminate].
    + rewrite andb_true_iff, N.eqb_eq, IH. split.
      * intros (-> & rest & ->). eauto.
      * intros (rest & H). injection H as -> ->. eauto.
Qed.

Section Stream.

Variable J : Type.
Variable JSON_parse : jsstring -> option J.

Lemma chunkValues_at_newline (a b : jsstring) :
  chunkValues JSON_parse (a ++ newline :: b)
  = chunkValues JSON_parse a ++ chunkValues JSON_parse b.
Proof.
  unfold chunkValues. now rewrite split_at_separator, filter_app, flat_map_app.
Qed.

(** Events are framed by lines: a chunk that is cut at a line end, the
    newline dropped, yields in its two parts what it yields in one. *)
Theorem streamTelemetry_cut_at_line_end (before after : list jsstring) (a b : jsstring) :
  streamTelemetry JSON_parse (Some (before ++ (a ++ newline :: b) :: after))
  = streamTelemetry JSON_parse (Some (before ++ a :: b :: after)).
Proof.
  unfold streamTelemetry. f_equal. rewrite !flat_map_app. f_equal. simpl.
  now rewrite chunkValues_at_newline, app_assoc.
Qed.

(** A chunk yields exactly the values that parse from what follows
    [data:] on one of its lines; lines that begin otherwise, and payloads
    that do not parse, yield nothing. *)
Theorem chunkValues_payloads (text : jsstring) (v : J) :
  In v (chunkValues JSON_parse text)
  <-> exists payload,
        In (js "data:" ++ payload) (split newline text)
        /\ JSON_parse payload = Some v.
Proof.
  unfold chunkValues. rewrite in_flat_map. split.
  - intros (line & Hline & Hv). apply filter_In in Hline as [Hline _].
    unfold lineValues in Hv.
    destruct (startsWith line (js "data:")) eqn:Hs; [|destruct Hv].
    apply startsWith_iff in Hs as (payload & ->).
    exists payload. split; [assumption|].
    change (slice5 (js "data:" ++ payload)) with payload in Hv.
    destruct (JSON_parse payload) as [v'|]; [|destruct Hv].
    destruct Hv as [->|[]]. reflexivity.
  - intros (payload & Hline & Hp). exists (js "data:" ++ payload). split.
    + apply filter_In. split; [assumption | reflexivity].
    + unfold lineValues.
      rewrite (proj2 (startsWith_iff (js "data:" ++ payload) (js "data:")))
        by eauto.
      change (slice5 (js "data:" ++ payload)) with payload.
      rewrite Hp. now left.
Qed.

End Stream.

End TelemetryFacts.

(** ** More on the statement validator *)

Module SpatialQueryMore.

Import Regex RegexFacts SpatialQueryMiddleware SpatialQueryFacts Vocabulary.

(** *** What a rejection means *)

Lemma tableLoop_sound (allowedTables : list jsstring) (fuel : nat) : forall p s r,
  tableLoop fuel allowedTables p s = Some r ->
  r = mkValidation true None
  \/ exists t, namesTableFrom p s t /\ ~ In t allowedTables /\ r = tableError t.
Proof.
  induction fuel as [|fuel IH]; intros p s r H; [discriminate|].
  rewrite tableLoop_S in H.
  destruct (search tablePattern p s) as [m|] eqn:E.
  - apply search_table in E as (pre & s' & w & post & -> & Hfc & ->).
    cbn [tableMatch group1 option_map prev rest] in H.
    pose proof Hfc as (f & ws & Es' & _ & _ & _ & _ & _ & Hwne & _).
    rewrite toLowerCase_truthy in H by assumption.
    destruct (includes allowedTables (toLowerCase w)) eqn:Hinc; cbn [negb andb] in H.
    + apply IH in H as [-> | (t & Hn & Hb & ->)]; [now left|].
      right. exists t. split; [|auto].
      rewrite Es'. rewrite !app_assoc. apply namesTableFrom_app.
      rewrite <- !app_assoc, !lastOr_app.
      now rewrite (@lastOr_nonempty _ None w) by assumption.
    + injection H as <-. right. exists (toLowerCase w).
      split; [|split; [now apply includes_not_In | reflexivity]].
      apply namesTableFrom_app. exact (fromClause_names Hfc).
  - injection H as <-. now left.
Qed.

(** The three answers of [validateSQLQuery]. *)
Lemma validateSQLQuery_cases (sql : jsstring) (allowedTables : list jsstring) :
  validateSQLQuery sql allowedTables = Some (mkValidation true None)
  \/ (exists pattern,
        In pattern dangerousPatterns /\ Occurs pattern sql
        /\ validateSQLQuery sql allowedTables = Some (patternError pattern))
  \/ (exists t,
        namesTable sql t /\ ~ In t allowedTables
        /\ validateSQLQuery sql allowedTables = Some (tableError t)).
Proof.
  unfold validateSQLQuery.
  destruct (patternLoop dangerousPatterns sql) as [r|] eqn:E.
  - right. left. apply patternLoop_Some in E as (pattern & Hin & Ht & ->).
    exists pattern. repeat split; [assumption|]. now apply dangerous_test_Occurs.
  - destruct (@tableLoop_total allowedTables (S (length sql)) None sql) as (r & Hr); [lia|].
    rewrite Hr. apply tableLoop_sound in Hr as [-> | (t & Hn & Hb & ->)].
    + now left.
    + right. right. exists t. auto.
Qed.

(** [validateSQLQuery] answers every statement, in one of three ways: it
    accepts it; or it rejects it for a forbidden pattern that occurs in
    it; or it rejects it for a table that the statement names after FROM
    and that the whitelist does not hold.  It rejects for nothing else. *)
Theorem validateSQLQuery_answers (sql : jsstring) (allowedTables : list jsstring) :
  validateSQLQuery sql allowedTables = Some (mkValidation true None)
  \/ (exists pattern,
        In pattern dangerousPatterns /\ Occurs pattern sql
        /\ validateSQLQuery sql allowedTables = Some (patternError pattern))
  \/ (exists t,
        namesTable sql t /\ ~ In t allowedTables
        /\ validateSQLQuery sql allowedTables = Some (tableError t)).
Proof. exact (validateSQLQuery_cases sql allowedTables). Qed.

(** *** What an acceptance means *)

(** Under a whitelist that does not hold the word [from], a statement is
    accepted exactly when no forbidden pattern occurs in it and every
    table it names after FROM is in the whitelist. *)
Theorem validateSQLQuery_accepts (sql : jsstring) (allowedTables : list jsstring) :
  ~ In (js "from") allowedTables ->
  (validateSQLQuery sql allowedTables = Some (mkValidation true None)
   <-> ~ Forbidden sql /\ forall t, namesTable sql t -> In t allowedTables).
Proof.
  intro Hfrom. split.
  - intro Hv. split.
    + intro HF. apply Forbidden_Occurs in HF as (pattern & Hin & Ho).
      apply dangerous_test_Occurs in Ho; [|assumption].
      destruct (@patternLoop_matches dangerousPatterns sql pattern Hin Ho) as (r & Hr).
      unfold validateSQLQuery in Hv. rewrite Hr in Hv.
      apply patternLoop_Some in Hr as (p & _ & _ & ->). discriminate.
    + intros t Hn. destruct (includes allowedTables t) eqn:Hinc; [now apply includes_In|].
      apply includes_not_In in Hinc.
      destruct (@rejects_unlisted_table sql allowedTables t Hfrom Hn Hinc)
        as (r & Hr & Hfalse & _).
      rewrite Hv in Hr. injection Hr as <-. discriminate.
  - intros [HF Hall].
    destruct (validateSQLQuery_cases sql allowedTables)
      as [H | [(pattern & Hin & Ho & _) | (t & Hn & Hb & _)]].
    + assumption.
    + exfalso. apply HF. apply Forbidden_Occurs. eauto.
    + exfalso. apply Hb. now apply Hall.
Qed.

Lemma validateSQLQuery_accepts_witness :
  validateSQLQuery (js "SELECT 1") DEFAULT_ALLOWED_TABLES = Some (mkValidation true None)
  <-> ~ Forbidden (js "SELECT 1")
      /\ forall t, namesTable (js "SELECT 1") t -> In t DEFAULT_ALLOWED_TABLES.
Proof.
  apply validateSQLQuery_accepts. exact default_tables_without_from.
Defined.

(** *** Larger whitelists *)

Lemma tableLoop_larger (A B : list jsstring) (fuel : nat) : forall p s,
  incl A B ->
  tableLoop fuel A p s = Some (mkValidation true None) ->
  tableLoop fuel B p s = Some (mkValidation true None).
Proof.
  induction fuel as [|fuel IH]; intros p s HAB H; [discriminate|].
  rewrite tableLoop_S in *.
  destruct (search tablePattern p s) as [m|]; [|assumption].
  destruct (option_map toLowerCase (group1 m)) as [t|]; [|now apply IH].
  destruct (truthy_str t); cbn [andb] in *; [|now apply IH].
  destruct (includes A t) eqn:HA; cbn [negb] in H; [|discriminate].
  apply includes_In in HA. apply HAB in HA. apply includes_In in HA.
  rewrite HA. cbn [negb]. now apply IH.
Qed.

(** A statement that a whitelist accepts is accepted by every larger
    whitelist. *)
Theorem validateSQLQuery_larger_whitelist (sql : jsstring) (A B : list jsstring) :
  incl A B ->
  validateSQLQuery sql A = Some (mkValidation true None) ->
  validateSQLQuery sql B = Some (mkValidation true None).
Proof.
  unfold validateSQLQuery. intros HAB H.
  destruct (patternLoop dangerousPatterns sql); [assumption|].
  eapply tableLoop_larger; eassumption.
Qed.

Lemma validateSQLQuery_larger_whitelist_witness :
  validateSQLQuery (js "select id from mission_log") (js "secrets" :: DEFAULT_ALLOWED_TABLES)
  = Some (mkValidation true None).
Proof.
  apply (@validateSQLQuery_larger_whitelist _ DEFAULT_ALLOWED_TABLES).
  - intros t Ht. now right.
  - vm_compute. reflexivity.
Defined.

(** *** Whitelist entries that are not in lower case *)

Lemma lower_not_upper (c : char16) : is_upper (lower c) = false.
Proof.
  unfold lower. destruct (is_upper c) eqn:E; [|assumption].
  destruct (is_upper (c + 32)%N) eqn:E'; [exfalso | reflexivity]. classes.
Qed.

Lemma tableLoop_ext (A B : list jsstring) (fuel : nat) : forall p s,
  (forall w, includes A (toLowerCase w) = includes B (toLowerCase w)) ->
  tableLoop fuel A p s = tableLoop fuel B p s.
Proof.
  induction fuel as [|fuel IH]; intros p s H; [reflexivity|].
  rewrite !tableLoop_S.
  destruct (search tablePattern p s) as [m|]; [|reflexivity].
  destruct (group1 m) as [w|]; cbn [option_map]; [|now apply IH].
  rewrite H. now rewrite IH.
Qed.

(** The name after FROM is put in lower case before it is looked up, so a
    whitelist entry that holds an upper-case letter matches nothing: with
    it or without it the answer is the same. *)
Theorem validateSQLQuery_upper_case_entry (sql entry : jsstring)
    (allowedTables : list jsstring) :
  hasUpper entry ->
  validateSQLQuery sql (entry :: allowedTables) = validateSQLQuery sql allowedTables.
Proof.
  intros (c & Hc & Hup). unfold validateSQLQuery.
  destruct (patternLoop dangerousPatterns sql); [reflexivity|].
  apply tableLoop_ext. intro w. unfold includes. simpl.
  destruct (str_eqb (toLowerCase w) entry) eqn:E; [|reflexivity].
  exfalso. apply str_eqb_eq in E. subst entry.
  apply in_map_iff in Hc as (c' & <- & _). rewrite lower_not_upper in Hup. discriminate.
Qed.

Lemma validateSQLQuery_upper_case_entry_witness :
  validateSQLQuery (js "SELECT * FROM Secrets") (js "Secrets" :: DEFAULT_ALLOWED_TABLES)
  = validateSQLQuery (js "SELECT * FROM Secrets") DEFAULT_ALLOWED_TABLES.
Proof.
  apply validateSQLQuery_upper_case_entry.
  exists 83%N. split; [now left | reflexivity].
Defined.

End SpatialQueryMore.

(** ** Letter case and the statement validator *)

Module LetterCase.

Import Regex RegexFacts SpatialQueryMiddleware SpatialQueryFacts Vocabulary SpatialQueryMore.

Lemma upper_lower (c : char16) : upper (lower c) = upper c.
Proof.
  unfold lower. destruct (is_upper c) eqn:E; [|reflexivity].
  unfold upper. destruct (is_lower (c + 32)%N) eqn:E1; destruct (is_lower c) eqn:E2;
    try (exfalso; classes). lia.
Qed.

Lemma lower_upper (c : char16) : lower (upper c) = lower c.
Proof.
  unfold upper. destruct (is_lower c) eqn:E; [|reflexivity].
  unfold lower. destruct (is_upper (c - 32)%N) eqn:E1; destruct (is_upper c) eqn:E2;
    try (exfalso; classes). clear E1 E2. classes.
Qed.

Lemma lower_lower (c : char16) : lower (lower c) = lower c.
Proof.
  unfold lower at 1. now rewrite lower_not_upper.
Qed.

Lemma is_space_lower (c : char16) : is_space (lower c) = is_space c.
Proof.
  unfold lower. destruct (is_upper c) eqn:E; [|reflexivity].
  destruct (is_space (c + 32)%N) eqn:E1; destruct (is_space c) eqn:E2;
    try reflexivity; exfalso; classes.
Qed.

Lemma is_word_lower (c : char16) : is_word (lower c) = is_word c.
Proof.
  unfold lower. destruct (is_upper c) eqn:E; [|reflexivity].
  destruct (is_word (c + 32)%N) eqn:E1; destruct (is_word c) eqn:E2;
    try reflexivity; exfalso; classes.
Qed.

Lemma cc_matches_lower (cc : cclass) (c : char16) :
  cc_matches true cc (lower c) = cc_matches true cc c.
Proof.
  destruct cc as [p| |]; simpl.
  - unfold canonicalize. now rewrite upper_lower.
  - apply is_space_lower.
  - apply is_word_lower.
Qed.

Lemma is_word_opt_lower (p : option char16) :
  is_word_opt (option_map lower p) = is_word_opt p.
Proof. destruct p; [apply is_word_lower | reflexivity]. Qed.

Lemma at_boundary_lower (st : mstate) : at_boundary (lowerState st) = at_boundary st.
Proof.
  unfold at_boundary, lowerState. cbn [prev rest].
  rewrite is_word_opt_lower. f_equal.
  destruct (rest st); [reflexivity | apply is_word_lower].
Qed.

Lemma captured_lower (st : mstate) :
  captured (lowerState st) = option_map (map lower) (captured st).
Proof.
  unfold captured, lowerState. cbn [opened rest].
  destruct (opened st) as [o|]; [|reflexivity]. cbn [option_map].
  now rewrite !length_map, firstn_map.
Qed.

Lemma one_caseBlind (cc : cclass) (k : cont) : caseBlind k -> caseBlind (one true cc k).
Proof.
  intros Hk st. unfold one. destruct st as [p [|c s] o g]; [reflexivity|].
  cbn [lowerState prev rest opened group1 map]. rewrite cc_matches_lower.
  destruct (cc_matches true cc c); [|reflexivity]. apply (Hk (mkState (Some c) s o g)).
Qed.

Lemma star_caseBlind (cc : cclass) (k : cont) : caseBlind k -> forall s p o g,
  star true cc k (option_map lower p) (map lower s)
       (option_map (map lower) o) (option_map (map lower) g)
  = option_map lowerState (star true cc k p s o g).
Proof.
  intros Hk s. induction s as [|c s IH]; intros p o g.
  - apply (Hk (mkState p [] o g)).
  - cbn [map star]. rewrite cc_matches_lower.
    destruct (cc_matches true cc c); [|apply (Hk (mkState p (c :: s) o g))].
    pose proof (IH (Some c) o g) as IHc. cbn [option_map] in IHc. rewrite IHc.
    destruct (star true cc k (Some c) s o g); [reflexivity|].
    apply (Hk (mkState p (c :: s) o g)).
Qed.

Lemma starK_caseBlind (cc : cclass) (k : cont) : caseBlind k -> caseBlind (starK true cc k).
Proof.
  intros Hk st. unfold starK. destruct st as [p s o g].
  now apply star_caseBlind.
Qed.

Lemma step_caseBlind (n : node) (k : cont) : caseBlind k -> caseBlind (step true n k).
Proof.
  intro Hk. destruct n as [cc|cc|cc| | |]; cbn [step].
  - now apply one_caseBlind.
  - now apply starK_caseBlind.
  - now apply one_caseBlind, starK_caseBlind.
  - intro st. rewrite at_boundary_lower. destruct (at_boundary st); [apply Hk | reflexivity].
  - intro st. destruct st as [p s o g]. apply (Hk (mkState p s (Some s) g)).
  - intro st. rewrite <- (Hk (mkState (prev st) (rest st) (opened st) (captured st))).
    f_equal. rewrite captured_lower. reflexivity.
Qed.

Lemma run_caseBlind (ns : list node) (k : cont) : caseBlind k -> caseBlind (run true ns k).
Proof.
  induction ns as [|n ns IH]; intro Hk; [assumption|].
  cbn [run]. apply step_caseBlind. now apply IH.
Qed.

Section IgnoreCase.

Variable re : regex.
Hypothesis re_ignoreCase : ignoreCase re = true.

Lemma match_at_lower (p : option char16) (s : jsstring) :
  match_at re (option_map lower p) (map lower s)
  = option_map lowerState (match_at re p s).
Proof.
  unfold match_at. rewrite re_ignoreCase.
  apply (@run_caseBlind (nodes re) (fun st => Some st) (fun st => eq_refl)
                        (mkState p s None None)).
Qed.

Lemma search_lower (s : jsstring) : forall p,
  search re (option_map lower p) (map lower s)
  = option_map lowerState (search re p s).
Proof.
  induction s as [|c s IH]; intro p.
  - rewrite !search_unfold, (match_at_lower p []).
    now destruct (match_at re p []).
  - rewrite (search_unfold re _ (map lower (c :: s))), (search_unfold re p (c :: s)).
    rewrite (match_at_lower p (c :: s)).
    destruct (match_at re p (c :: s)); [reflexivity|]. apply (IH (Some c)).
Qed.

Lemma test_lower (s : jsstring) : test re (map lower s) = test re s.
Proof.
  unfold test. pose proof (search_lower s None) as H. cbn [option_map] in H.
  rewrite H. now destruct (search re None s).
Qed.

End IgnoreCase.

Lemma dangerousPatterns_ignoreCase :
  Forall (fun pattern => ignoreCase pattern = true) dangerousPatterns.
Proof. repeat constructor. Qed.

Lemma patternLoop_lower (patterns : list regex) (sql : jsstring) :
  Forall (fun pattern => ignoreCase pattern = true) patterns ->
  patternLoop patterns (map lower sql) = patternLoop patterns sql.
Proof.
  induction 1 as [|p ps Hp Hps IH]; [reflexivity|].
  cbn [patternLoop]. rewrite (@test_lower p Hp sql). now rewrite IH.
Qed.

Lemma tableLoop_lower (allowedTables : list jsstring) (fuel : nat) : forall p s,
  tableLoop fuel allowedTables (option_map lower p) (map lower s)
  = tableLoop fuel allowedTables p s.
Proof.
  induction fuel as [|fuel IH]; intros p s; [reflexivity|].
  rewrite !tableLoop_S. rewrite (@search_lower tablePattern eq_refl s p).
  destruct (search tablePattern p s) as [m|]; [|reflexivity].
  cbn [option_map]. unfold lowerState at 1. cbn [group1].
  destruct (group1 m) as [w|]; cbn [option_map].
  - replace (toLowerCase (map lower w)) with (toLowerCase w)
      by (unfold toLowerCase; rewrite map_map; apply map_ext; intro; now rewrite lower_lower).
    destruct (truthy_str (toLowerCase w) && negb (includes allowedTables (toLowerCase w)));
      [reflexivity|].
    apply (IH (prev m) (rest m)).
  - apply (IH (prev m) (rest m)).
Qed.

Lemma validateSQLQuery_lower (sql : jsstring) (allowedTables : list jsstring) :
  validateSQLQuery (map lower sql) allowedTables = validateSQLQuery sql allowedTables.
Proof.
  unfold validateSQLQuery.
  rewrite (@patternLoop_lower dangerousPatterns sql dangerousPatterns_ignoreCase).
  destruct (patternLoop dangerousPatterns sql); [reflexivity|].
  rewrite length_map. apply (tableLoop_lower allowedTables (S (length sql)) None sql).
Qed.

(** Two statements that differ in the case of their ASCII letters alone
    get the same answer, error text included: no statement escapes the
    scan or the table check by its spelling in upper or lower case. *)
Theorem validateSQLQuery_case_blind (sql sql' : jsstring) (allowedTables : list jsstring) :
  sameLetters sql sql' ->
  validateSQLQuery sql allowedTables = validateSQLQuery sql' allowedTables.
Proof.
  intro H. change (map upper sql = map upper sql') in H.
  rewrite <- (validateSQLQuery_lower sql), <- (validateSQLQuery_lower sql').
  replace (map lower sql) with (map lower (map upper sql))
    by (rewrite map_map; apply map_ext; intro; apply lower_upper).
  replace (map lower sql') with (map lower (map upper sql'))
    by (rewrite map_map; apply map_ext; intro; apply lower_upper).
  now rewrite H.
Qed.

Lemma validateSQLQuery_case_blind_witness :
  validateSQLQuery (js "select * From Secrets; dRoP table x") DEFAULT_ALLOWED_TABLES
  = validateSQLQuery (js "SELECT * FROM SECRETS; DROP TABLE X") DEFAULT_ALLOWED_TABLES.
Proof. apply validateSQLQuery_case_blind. reflexivity. Defined.

End LetterCase.

(** ** More on the statement generator and the backend that runs it *)

Module PostGISMore.

Import Regex RegexFacts SpatialQueryMiddleware SpatialQueryFacts JsNumber PostGIS
       PostGISFacts PostGISBackend Vocabulary.

(** [generateSQL] does not tell apart the types of query, nor an empty
    array of fields or of orderings from an absent one, nor a limit of
    zero (or [NaN]) from no limit: a query and its normal form compile to
    the same. *)
Theorem generateSQL_normalize (query : SpatialQuery) :
  generateSQL (normalize query) = generateSQL query.
Proof.
  unfold generateSQL, normalize,
    selectClause, timeRangeClause, geometryClause, orderByClause, limitClause.
  cbn [type timeRange geometry select orderBy limit].
  destruct (select query) as [[|f fs]|]; destruct (orderBy query) as [[|o os]|];
    destruct (limit query) as [n|]; try reflexivity;
    destruct (truthy n) eqn:E; rewrite ?E; reflexivity.
Qed.

Lemma orderBy_field_in_text_witness :
  exists pre post,
    js "SELECT * FROM spatial_data WHERE 1=1 ORDER BY id; DROP TABLE mission_log; -- ASC LIMIT 5"
    = pre ++ js "id; DROP TABLE mission_log; --" ++ post.
Proof.
  apply (@orderBy_field_in_text stackedOrdering _
           [mkOrderBy (js "id; DROP TABLE mission_log; --") asc]
           (mkOrderBy (js "id; DROP TABLE mission_log; --") asc)).
  - vm_compute. reflexivity.
  - reflexivity.
  - now left.
Defined.

Lemma limit_in_text_witness :
  exists pre,
    js "SELECT * FROM spatial_data WHERE 1=1 AND timestamp BETWEEN '2024-01-01T00:00:00.000Z' AND '2024-01-02T00:00:00.000Z' LIMIT 5000"
    = pre ++ js " LIMIT " ++ toString (ofZ 5000).
Proof.
  apply (@limit_in_text limit5000 _ (ofZ 5000)).
  - vm_compute. reflexivity.
  - reflexivity.
  - reflexivity.
Defined.

(** A call of [executeSpatialQuery] goes one of two ways.  When a bound of
    the time range is an invalid date, it throws before any statement is
    executed.  Otherwise it executes one statement, the one [generateSQL]
    returns, and reports it with no rows; nothing checks that statement on
    the way, and it is one that [validateSQLQuery] rejects under the
    default whitelist.  Either way the backend is initialized afterwards. *)
Theorem executeSpatialQuery_runs (b : backend) (now0 now1 now2 : Z) (query : SpatialQuery) :
  (exists range,
     timeRange query = Some range
     /\ (start range = InvalidDate \/ end' range = InvalidDate)
     /\ executeSpatialQuery b now0 now1 now2 query = (mkBackend true (console b), None))
  \/ (exists text r,
        generateSQL query = Statement text
        /\ validateSQLQuery text DEFAULT_ALLOWED_TABLES = Some r /\ valid r = false
        /\ executeSpatialQuery b now0 now1 now2 query
           = (mkBackend true (console b ++ [js "Executing SQL: " ++ text]),
              Some (mkResult (js "query-" ++ decimal now1) text (now2 - now0) 0 [] []))).
Proof.
  unfold executeSpatialQuery, executeSQL.
  destruct (generateSQL query) as [text|] eqn:E.
  - right.
    destruct (@rejects_unlisted_table text DEFAULT_ALLOWED_TABLES (js "spatial_data"))
      as (r & Hr & Hv & _).
    + exact default_tables_without_from.
    + exact (@generated_names_spatial_data query text E).
    + exact spatial_data_not_listed.
    + exists text, r. repeat split; try assumption.
      destruct b as [[|] log]; reflexivity.
  - left. apply generateSQL_RangeError in E as (range & Hr & Hbad).
    exists range. repeat split; try assumption.
    destruct b as [[|] log]; reflexivity.
Qed.

(** [checkGeoFence] answers [false] for every fence and point: the rows it
    would read never come. *)
Lemma checkGeoFence_false (b : backend) (fenceId : jsstring) (x y : number) :
  snd (checkGeoFence b fenceId x y) = false.
Proof. reflexivity. Qed.

End PostGISMore.

(** ** More on stop detection *)

Module TrajectoryMore.

Import Trajectory TrajectoryFacts Vocabulary.

Lemma detectStopPoints_defaults (points : list TrajectoryPoint) (sT dT : option Q) :
  detectStopPoints points sT dT
  = detectStopPoints points
      (Some (match sT with Some v => v | None => defaultSpeedThreshold end))
      (Some (match dT with Some v => v | None => defaultDurationThreshold end)).
Proof. reflexivity. Qed.

Section Loop.

Variable points : list TrajectoryPoint.
Variables sT dT : Q.

(** An iteration leaves [stopPoints] as it is or adds [stopStart] at its
    end. *)
Lemma loopBody_stopPoints (st : loopState) (i : nat) :
  stopPoints (loopBody points sT dT st i) = stopPoints st
  \/ exists s, stopStart st = Some s
               /\ stopPoints (loopBody points sT dT st i) = stopPoints st ++ [s].
Proof.
  unfold loopBody.
  destruct (Qle_bool _ sT).
  - left. now destruct (stopStart st).
  - destruct (stopStart st) as [s|]; [|now left]. cbn [stopPoints].
    destruct (nth_error points s) as [sp|]; [|now left].
    destruct (before points i) as [ep|]; [|now left].
    destruct (num_ge (duration sp ep) dT); [right; eauto | now left].
Qed.

Lemma sorted_snoc (l : list nat) (s : nat) :
  StronglySorted lt l -> (forall x, In x l -> x < s) -> StronglySorted lt (l ++ [s]).
Proof.
  induction 1 as [|a l Hl IH Ha]; intro Hs; simpl.
  - repeat constructor.
  - constructor.
    + apply IH. intros x Hx. apply Hs. now right.
    + apply Forall_app. split; [assumption|]. constructor; [|constructor].
      apply Hs. now left.
Qed.

Lemma sorted_loopUpTo (n : nat) :
  n <= length points -> StronglySorted lt (stopPoints (loopUpTo points sT dT n)).
Proof.
  induction n as [|n IH]; intro Hn; [constructor|].
  rewrite loopUpTo_S.
  destruct (loopBody_stopPoints (loopUpTo points sT dT n) n) as [-> | (s & Hs & ->)].
  - apply IH. lia.
  - apply sorted_snoc; [apply IH; lia|].
    destruct (@invariant_loopUpTo points sT dT n) as [I1 I2]; [lia|].
    rewrite Hs in I1. destruct I1 as (Hlt & Hall & _).
    intros x Hx. apply I2 in Hx as (e & He & [(Hle & _ & _) Hm] & _).
    destruct (Nat.le_gt_cases s (S e)) as [H|H]; [|lia].
    exfalso. apply (@stopped_not_moving points sT (S e)); [apply Hall; lia | assumption].
Qed.

(** The loop over a prefix of the input does what it does over the whole:
    it looks at no point beyond its index. *)
Lemma loopUpTo_prefix (more : list TrajectoryPoint) (n : nat) :
  n <= length points ->
  loopUpTo (points ++ more) sT dT n = loopUpTo points sT dT n.
Proof.
  induction n as [|n IH]; intro Hn; [reflexivity|].
  rewrite !loopUpTo_S, IH by lia.
  destruct (@invariant_loopUpTo points sT dT n) as [I1 _]; [lia|].
  unfold loopBody. rewrite nth_error_app1 by lia.
  destruct (stopStart (loopUpTo points sT dT n)) as [s|]; [|reflexivity].
  destruct I1 as (Hlt & _ & _).
  rewrite (@nth_error_app1 _ points more s) by lia.
  destruct n as [|m]; [lia|]. cbn [before].
  now rewrite (@nth_error_app1 _ points more m) by lia.
Qed.

Lemma loopUpTo_grows (k n : nat) :
  prefixOf (stopPoints (loopUpTo points sT dT n))
           (stopPoints (loopUpTo points sT dT (n + k))).
Proof.
  induction k as [|k (l & IH)].
  - exists []. now rewrite Nat.add_0_r, app_nil_r.
  - rewrite Nat.add_succ_r, loopUpTo_S.
    destruct (loopBody_stopPoints (loopUpTo points sT dT (n + k)) (n + k))
      as [-> | (s & _ & ->)].
    + exists l. assumption.
    + exists (l ++ [s]). now rewrite IH, app_assoc.
Qed.

End Loop.

(** The indices reported are exactly the first indices of the runs of
    stopped points that start after a moving point (or with the input),
    that a moving point closes, and whose time span, last timestamp minus
    first, is at least the duration threshold. *)
Theorem detectStopPoints_exactly_closed_runs (points : list TrajectoryPoint)
    (speedThreshold durationThreshold : Q) (s : nat) :
  In s (detectStopPoints points (Some speedThreshold) (Some durationThreshold))
  <-> exists e, closedRun points speedThreshold s e
                /\ spanAtLeast points durationThreshold s e.
Proof. apply detectStopPoints_closed_runs. Qed.

(** The indices come in increasing order, without repetition, and each is
    followed by at least one more point. *)
Theorem detectStopPoints_sorted (points : list TrajectoryPoint)
    (speedThreshold durationThreshold : option Q) :
  StronglySorted lt (detectStopPoints points speedThreshold durationThreshold)
  /\ forall s, In s (detectStopPoints points speedThreshold durationThreshold)
               -> S s < length points.
Proof.
  rewrite detectStopPoints_defaults. split.
  - apply sorted_loopUpTo. apply Nat.le_refl.
  - intros s Hs. apply detectStopPoints_closed_runs in Hs as (e & [(Hle & _) Hm] & _).
    apply movingAt_lt in Hm. lia.
Qed.

(** Stop detection works online: what is reported for a recording is the
    beginning of what is reported for any longer recording that starts
    with it. *)
Theorem detectStopPoints_prefix (points more : list TrajectoryPoint)
    (speedThreshold durationThreshold : option Q) :
  prefixOf (detectStopPoints points speedThreshold durationThreshold)
           (detectStopPoints (points ++ more) speedThreshold durationThreshold).
Proof.
  rewrite !detectStopPoints_defaults. unfold detectStopPoints.
  rewrite length_app, <- (@loopUpTo_prefix points _ _ more (length points)) by apply Nat.le_refl.
  apply loopUpTo_grows.
Qed.

(** A longer duration threshold reports no index that a shorter one does
    not. *)
Theorem detectStopPoints_threshold (points : list TrajectoryPoint)
    (speedThreshold : option Q) (shorter longer : Q) (s : nat) :
  (shorter <= longer)%Q ->
  In s (detectStopPoints points speedThreshold (Some longer)) ->
  In s (detectStopPoints points speedThreshold (Some shorter)).
Proof.
  intro Hle. rewrite !(detectStopPoints_defaults points speedThreshold).
  cbn [detectStopPoints]. intro H.
  apply detectStopPoints_closed_runs in H as (e & Hc & (sp & ep & Hsp & Hep & Hge)).
  apply detectStopPoints_closed_runs. exists e. split; [assumption|].
  exists sp, ep. repeat split; try assumption.
  unfold num_ge in *. destruct (duration sp ep) as [d|]; [|discriminate].
  apply Qle_bool_iff. apply Qle_bool_iff in Hge. eapply Qle_trans; eassumption.
Qed.

Lemma detectStopPoints_threshold_witness :
  In 0 (detectStopPoints twoStops None (Some 30%Q)).
Proof.
  apply (@detectStopPoints_threshold twoStops None 30%Q 60%Q 0).
  - discriminate.
  - now left.
Defined.

End TrajectoryMore.
